(** * corestore-next: key derivation, profile storage, namespaces and the core registry

    A shallow embedding of [lib/keys.js] (the [KeyManager] class with its
    [deriveSeed] and [randomBytes] helpers) and of the standalone key
    derivation that the test suite of the store checks the store against,
    followed by the properties the specification states about them.

    JavaScript values are modelled as far as the code inspects them: a
    [name] is any JavaScript value (the code tests its truthiness and its
    [typeof]), a Buffer is a list of bytes, a string is a list of UTF-16
    code units.  Effects are explicit: every operation runs in a monad over
    a [World] that holds the storage slots, the entropy read by
    [sodium.randombytes_buf], the stale memory handed out by
    [Buffer.allocUnsafe] and a trace of the hashing, key generation and
    storage calls made so far.  The cryptographic primitives (BLAKE2b and
    the Ed25519 key generation of libsodium) are parameters. *)

From Stdlib Require Import ZArith NArith Lia DecimalString.
From Stdlib Require Import Init.Byte Strings.Byte Strings.Ascii.
From stdpp Require Import base option list gmap strings.

#[local] Open Scope string_scope.
#[local] Open Scope list_scope.
#[local] Open Scope nat_scope.

(** ** Bytes, buffers and JavaScript strings *)

Definition bytes := list byte.

#[global] Instance byte_eq_decision : EqDecision byte := Byte.byte_eq_dec.

(** The low eight bits of a number, as a byte. *)
Definition byte_of_N (n : N) : byte := byte_of_ascii (ascii_of_N n).



(** A JavaScript string: its UTF-16 code units. *)
Definition jsstring := list N.

Definition js (s : string) : jsstring :=
  map N_of_ascii (String.list_ascii_of_string s).

(** [Buffer.alloc(n)]: [n] zero bytes. *)
Definition alloc (n : nat) : bytes := repeat Byte.x00 n.

(** A native call that fills a caller-supplied buffer: the buffer keeps
    its size and takes the data from its start. *)
Definition fill_buffer (buf data : bytes) : bytes :=
  take (length buf) data ++ drop (length data) buf.

(** [Buffer.from(s, 'ascii')]: when a string is encoded, Node treats
    ['ascii'] as ['latin1'], one byte per code unit, its low eight bits. *)
Definition Buffer_from_ascii (s : jsstring) : bytes := map byte_of_N s.

(** [Buffer.byteLength(s, 'ascii')]: one byte per code unit. *)
Definition Buffer_byteLength_ascii (s : jsstring) : nat := length s.

(** [Buffer.from(s)] and [b4a.from(s)]: the UTF-8 encoding; a surrogate
    pair is one four-byte sequence, a lone surrogate becomes U+FFFD. *)
Definition utf8_2 (c : N) : bytes :=
  [byte_of_N (N.lor 192 (N.shiftr c 6)); byte_of_N (N.lor 128 (N.land c 63))].

Definition utf8_3 (c : N) : bytes :=
  [byte_of_N (N.lor 224 (N.shiftr c 12));
   byte_of_N (N.lor 128 (N.land (N.shiftr c 6) 63));
   byte_of_N (N.lor 128 (N.land c 63))].

Definition utf8_4 (c : N) : bytes :=
  [byte_of_N (N.lor 240 (N.shiftr c 18));
   byte_of_N (N.lor 128 (N.land (N.shiftr c 12) 63));
   byte_of_N (N.lor 128 (N.land (N.shiftr c 6) 63));
   byte_of_N (N.lor 128 (N.land c 63))].

Definition is_high_surrogate (c : N) : bool := (55296 <=? c)%N && (c <? 56320)%N.
Definition is_low_surrogate (c : N) : bool := (56320 <=? c)%N && (c <? 57344)%N.

Fixpoint Buffer_from (s : jsstring) : bytes :=
  match s with
  | [] => []
  | c :: rest =>
    if (c <? 128)%N then byte_of_N c :: Buffer_from rest
    else if (c <? 2048)%N then utf8_2 c ++ Buffer_from rest
    else if is_high_surrogate c then
      match rest with
      | d :: rest' =>
        if is_low_surrogate d
        then utf8_4 (65536 + N.shiftl (c - 55296) 10 + (d - 56320))%N
               ++ Buffer_from rest'
        else utf8_3 65533 ++ Buffer_from rest
      | [] => utf8_3 65533
      end
    else if is_low_surrogate c then utf8_3 65533 ++ Buffer_from rest
    else utf8_3 c ++ Buffer_from rest
  end.

(** The string ['\n']: one line feed. *)
Definition js_newline : jsstring := [10%N].

(** A number concatenated to a string: its decimal digits. *)
Definition decimal (n : nat) : jsstring :=
  js (NilZero.string_of_uint (Nat.to_uint n)).

(** ** JavaScript values, as far as [deriveSeed] looks at a name *)

Inductive jsval :=
| JUndefined
| JNull
| JBoolean (b : bool)
| JNumber (z : Z)
| JString (s : jsstring)
| JBuffer (b : bytes)
| JObject.

(** Truthiness: [undefined], [null], [false], [0] and [''] are falsy;
    every object, a Buffer included (an empty one too), is truthy. *)
Definition truthy (v : jsval) : bool :=
  match v with
  | JUndefined | JNull => false
  | JBoolean b => b
  | JNumber z => negb (z =? 0)%Z
  | JString s => negb (bool_decide (s = []))
  | JBuffer _ | JObject => true
  end.

Definition typeof (v : jsval) : string :=
  match v with
  | JUndefined => "undefined"
  | JNull => "object"
  | JBoolean _ => "boolean"
  | JNumber _ => "number"
  | JString _ => "string"
  | JBuffer _ | JObject => "object"
  end.

(** The code units of a value already known to be a string. *)
Definition string_of (v : jsval) : jsstring :=
  match v with JString s => s | _ => [] end.

(** ** Errors *)

Inductive exn :=
| Error (message : string)        (* [new Error(message)] *)
| StorageError (code : string).   (* an error of the storage driver, with its [code] *)

Definition token_error : exn := Error "Token must be a Buffer with length >= 32".
Definition name_error : exn := Error "name must be a String".

(** The specification's [InvalidArgument] class: the two errors that
    [deriveSeed] throws on its arguments. *)
Definition InvalidArgument (e : exn) : Prop := e = token_error ∨ e = name_error.

(** ** The world the code runs in *)

(** A storage slot, as the random-access-storage drivers present it: a
    slot that is missing from [files] does not exist ([stat] fails with
    [ENOENT]); a slot holds bytes; or it is out of order and fails every
    call with an error code of its own; or its [stat] still answers (for
    the content it has, with [ENOENT] when it has none) while every [read]
    and [write] fails with an error code, as for a directory or a slot
    that may not be written. *)
Inductive slot :=
| Data (content : bytes)
| Faulty (code : string)
| Failing (content : option bytes) (code : string).

Inductive event :=
| EvHash (outlen : nat) (key msg : bytes)
| EvKeygen (seed : bytes)
| EvRandom (n : nat)
| EvStat (path : string)
| EvRead (path : string) (offset size : nat)
| EvWrite (path : string) (offset : nat) (data : bytes).

Record World := mkWorld {
  files : gmap string slot;   (* the storage slots, by path *)
  entropy : nat → byte;       (* what [sodium.randombytes_buf] will deliver *)
  entropy_pos : nat;
  stale : nat → byte;         (* what [Buffer.allocUnsafe] finds in memory *)
  stale_pos : nat;
  trace : list event          (* hashing, key generation, storage calls; newest last *)
}.

(** ** A state and exception monad *)

Inductive result (A : Type) :=
| Throw (e : exn)
| Return (a : A).
Arguments Throw {A} e.
Arguments Return {A} a.

Definition M (A : Type) : Type := World → result A * World.

Definition ret {A} (a : A) : M A := fun w => (Return a, w).
Definition throw {A} (e : exn) : M A := fun w => (Throw e, w).
Definition bind {A B} (c : M A) (k : A → M B) : M B :=
  fun w => match c w with
           | (Return a, w') => k a w'
           | (Throw e, w') => (Throw e, w')
           end.

Notation "'let*' x ':=' c 'in' k" := (bind c (fun x => k))
  (at level 10, x name, c at level 100, k at level 200).

Definition record (e : event) (w : World) : World :=
  mkWorld (files w) (entropy w) (entropy_pos w) (stale w) (stale_pos w) (trace w ++ [e]).

Definition take_stale (n : nat) (w : World) : World :=
  mkWorld (files w) (entropy w) (entropy_pos w) (stale w) (stale_pos w + n) (trace w).

Definition take_entropy (n : nat) (w : World) : World :=
  mkWorld (files w) (entropy w) (entropy_pos w + n) (stale w) (stale_pos w) (trace w).

Definition store (path : string) (content : bytes) (w : World) : World :=
  mkWorld (<[path := Data content]> (files w))
          (entropy w) (entropy_pos w) (stale w) (stale_pos w) (trace w).

Definition log (e : event) : M unit := fun w => (Return tt, record e w).

(** The next [n] bytes of entropy, and of stale memory. *)
Definition next_entropy (n : nat) (w : World) : bytes :=
  map (entropy w) (seq (entropy_pos w) n).

Definition next_stale (n : nat) (w : World) : bytes :=
  map (stale w) (seq (stale_pos w) n).

(** [Buffer.allocUnsafe(n)]: [n] bytes of whatever the memory held. *)
Definition allocUnsafe (n : nat) : M bytes :=
  fun w => (Return (next_stale n w), take_stale n w).

(** [sodium.randombytes_buf(buf)]: fills the buffer with fresh entropy. *)
Definition randombytes_buf (buf : bytes) : M bytes :=
  fun w => let n := length buf in
           (Return (fill_buffer buf (next_entropy n w)),
            record (EvRandom n) (take_entropy n w)).

(** [randomBytes] of keys.js. *)
Definition randomBytes (n : nat) : M bytes :=
  let* buf := allocUnsafe n in
  randombytes_buf buf.

(** ** The storage driver *)

Definition write_at (offset : nat) (data content : bytes) : bytes :=
  take offset (content ++ repeat Byte.x00 (offset - length content))
    ++ data ++ drop (offset + length data) content.

(** [storage.stat(cb)]: the callback's [(err, st)], with [st.size]. *)
Definition stat (path : string) : M (option exn * nat) :=
  let* _ := log (EvStat path) in
  fun w => (Return match files w !! path with
                   | None => (Some (StorageError "ENOENT"), 0)
                   | Some (Faulty code) => (Some (StorageError code), 0)
                   | Some (Failing None _) => (Some (StorageError "ENOENT"), 0)
                   | Some (Failing (Some content) _) => (None, length content)
                   | Some (Data content) => (None, length content)
                   end, w).

(** [storage.write(offset, data, cb)]: the callback's [err]. *)
Definition write (path : string) (offset : nat) (data : bytes) : M (option exn) :=
  let* _ := log (EvWrite path offset data) in
  fun w => match files w !! path with
           | Some (Faulty code) | Some (Failing _ code) =>
             (Return (Some (StorageError code)), w)
           | other =>
             let content := match other with Some (Data c) => c | _ => [] end in
             (Return None, store path (write_at offset data content) w)
           end.

(** [storage.read(offset, size, cb)]: the callback's [(err, data)]. *)
Definition read (path : string) (offset size : nat) : M (exn + bytes) :=
  let* _ := log (EvRead path offset size) in
  fun w => (Return match files w !! path with
                   | None => inl (StorageError "ENOENT")
                   | Some (Faulty code) | Some (Failing _ code) => inl (StorageError code)
                   | Some (Data content) =>
                     if (offset + size <=? length content)%nat
                     then inr (take size (drop offset content))
                     else inl (Error "Could not satisfy length")
                   end, w).

Definition code_of (e : exn) : option string :=
  match e with StorageError c => Some c | Error _ => None end.

(** ** Constants *)

Definition crypto_sign_PUBLICKEYBYTES : nat := 32.
Definition crypto_sign_SECRETKEYBYTES : nat := 64.
Definition crypto_sign_BYTES : nat := 64.

Definition DEFAULT_TOKEN : bytes := alloc 0.
Definition NAMESPACE : bytes := Buffer_from (js "@hyperspace/key-manager").

(** ** Records *)

(** A key pair as [createHypercoreKeyPair] and [createNetworkIdentity]
    return it; the former names the secret key [_secretKey] and adds a
    [sign] closure over it, which takes no part in what follows. *)
Record KeyPair := mkKeyPair {
  publicKey : bytes;
  secretKey : bytes
}.

(** A [KeyManager]: the storage object (here the path of its slot) and
    the profile. *)
Record KeyManager := mkKeyManager {
  storage : string;
  profile : bytes
}.

(** The options of [fromStorage]. *)
Record Opts := mkOpts {
  name : option string;
  overwrite : bool
}.

Definition no_opts : Opts := mkOpts None false.


(** ** The core registry

    Modelled from the spec: the store's cache of cores, its [get] and the
    closing of a session are not among the sources; the tests only read
    [store.cores.size].  The registry keeps a cache entry
    [{publicKey, logInstance, refcount}] per resolved identity.  [resolve]
    looks the public key up: if present it increments the reference count
    and returns a new handle on the same log instance; if absent it has the
    opener construct a log instance, inserts an entry with reference count
    1 and returns a handle; if the opener fails no entry is created.
    [release] decrements the reference count and, at zero, closes the log
    instance and removes the entry.

    The cache is a list of entries, so that having one entry per key is a
    property of the operations and not of the container.  Next to it the
    state records the log instances that are open and the handles that have
    been given out and not released; releasing a handle that is not
    outstanding changes nothing. *)

Record entry := mkEntry {
  entry_publicKey : bytes;
  logInstance : nat;
  refcount : nat
}.

Record handle := mkHandle {
  handle_id : nat;
  handle_publicKey : bytes;
  handle_log : nat
}.

Record Registry := mkRegistry {
  cores : list entry;               (* the cache *)
  open_logs : list (nat * bytes);   (* open log instances, each with its key *)
  handles : list handle;            (* outstanding handles *)
  next_log : nat;
  next_handle : nat
}.

Definition empty_registry : Registry := mkRegistry [] [] [] 0 0.

Definition has_key (pk : bytes) (e : entry) : bool :=
  bool_decide (entry_publicKey e = pk).

Definition retain (pk : bytes) (e : entry) : entry :=
  if has_key pk e then mkEntry (entry_publicKey e) (logInstance e) (S (refcount e)) else e.

Definition drop_ref (pk : bytes) (e : entry) : entry :=
  if has_key pk e then mkEntry (entry_publicKey e) (logInstance e) (pred (refcount e)) else e.

(** [resolve(publicKey, opener)]; [opens] tells whether the opener
    succeeds when it is invoked. *)
Definition resolve (pk : bytes) (opens : bool) (r : Registry) : option handle * Registry :=
  match find (has_key pk) (cores r) with
  | Some e =>
    let h := mkHandle (next_handle r) pk (logInstance e) in
    (Some h, mkRegistry (retain pk <$> cores r) (open_logs r)
                        (h :: handles r) (next_log r) (S (next_handle r)))
  | None =>
    if opens then
      let h := mkHandle (next_handle r) pk (next_log r) in
      (Some h, mkRegistry (cores r ++ [mkEntry pk (next_log r) 1])
                          (open_logs r ++ [(next_log r, pk)])
                          (h :: handles r) (S (next_log r)) (S (next_handle r)))
    else (None, r)
  end.

(** [release(handle)], the handle given by its id. *)
Definition release (id : nat) (r : Registry) : Registry :=
  match find (λ h, handle_id h =? id)%nat (handles r) with
  | None => r
  | Some h =>
    let pk := handle_publicKey h in
    let rest := filter (λ h', handle_id h' ≠ id) (handles r) in
    match find (has_key pk) (cores r) with
    | None => mkRegistry (cores r) (open_logs r) rest (next_log r) (next_handle r)
    | Some e =>
      if (refcount e <=? 1)%nat
      then mkRegistry (filter (λ e', entry_publicKey e' ≠ pk) (cores r))
                      (filter (λ l, l.1 ≠ logInstance e) (open_logs r))
                      rest (next_log r) (next_handle r)
      else mkRegistry (drop_ref pk <$> cores r) (open_logs r)
                      rest (next_log r) (next_handle r)
    end
  end.

Inductive op :=
| Resolve (pk : bytes) (opens : bool)
| Release (id : nat).

Definition step (r : Registry) (o : op) : Registry :=
  match o with
  | Resolve pk opens => (resolve pk opens r).2
  | Release id => release id r
  end.

Definition run_ops (ops : list op) : Registry := fold_left step ops empty_registry.

(** The history of a registry as its callers see it: next to the registry,
    the handles that [resolve] has returned and that no later [release]
    has named. *)
Definition track (s : Registry * list handle) (o : op) : Registry * list handle :=
  match o with
  | Resolve pk opens =>
    let out := resolve pk opens s.1 in
    (out.2, match out.1 with Some h => h :: s.2 | None => s.2 end)
  | Release id => (release id s.1, filter (λ h, handle_id h ≠ id) s.2)
  end.

Definition outstanding (ops : list op) : list handle :=
  (fold_left track ops (empty_registry, [])).2.

(** The public keys that some outstanding handle refers to, each once. *)
Definition live_keys (r : Registry) : list bytes :=
  remove_dups (handle_publicKey <$> handles r).

(** The handles in a list that refer to a key. *)
Definition handles_of (pk : bytes) (hs : list handle) : list handle :=
  filter (λ h, handle_publicKey h = pk) hs.

(** The open log instance behind a cache entry. *)
Definition log_of (e : entry) : nat * bytes := (logInstance e, entry_publicKey e).

(** What every reachable registry satisfies. *)
Record registry_inv (r : Registry) : Prop := {
  inv_keys : NoDup (entry_publicKey <$> cores r);
  inv_logs : open_logs r = log_of <$> cores r;
  inv_instances : NoDup (logInstance <$> cores r);
  inv_fresh_log : ∀ e, e ∈ cores r → logInstance e < next_log r;
  inv_refcount : ∀ e, e ∈ cores r →
    refcount e = length (handles_of (entry_publicKey e) (handles r)) ∧ 0 < refcount e;
  inv_handles : ∀ h, h ∈ handles r →
    handle_publicKey h ∈ entry_publicKey <$> cores r;
  inv_ids : NoDup (handle_id <$> handles r);
  inv_fresh_id : ∀ h, h ∈ handles r → handle_id h < next_handle r
}.

(** ** Stand-ins for the primitives

    Small executable functions of the primitives' types, used to run the
    theorems below at concrete inputs.  They are no model of BLAKE2b or of
    Ed25519. *)

Definition toy_hash (outlen : nat) (key msg : bytes) : bytes :=
  take outlen (reverse msg ++ key ++ alloc outlen).

Definition toy_keypair (seed : bytes) : bytes * bytes :=
  let pk := take 32 (seed ++ alloc 32) in
  (pk, take 32 (reverse seed ++ alloc 32) ++ pk).


Definition toy_sign (message sk : bytes) : bytes :=
  take 64 (message ++ sk ++ alloc 64).

(** ** Two worlds, two managers *)

Definition world_a : World :=
  mkWorld ∅ (λ i, byte_of_N (N.of_nat (S i))) 0 (λ _, Byte.xff) 0 [].

Definition world_b : World :=
  mkWorld {[ "default" := Data (alloc 40) ]}
          (λ _, Byte.x07) 5 (λ i, byte_of_N (N.of_nat (3 * i))) 9
          [EvStat "default"].

Definition world_c : World :=
  mkWorld {[ "default" := Faulty "EACCES" ]} (λ _, Byte.x07) 0 (λ _, Byte.x00) 0 [].

Definition world_d : World :=
  mkWorld {[ "default" := Failing (Some (alloc 4096)) "EISDIR" ]}
          (λ _, Byte.x07) 0 (λ _, Byte.x00) 0 [].

Definition manager_a : KeyManager := mkKeyManager "default" (alloc 32).
Definition manager_b : KeyManager := mkKeyManager "elsewhere" (alloc 32).

Definition token_1 : bytes := alloc 32.
Definition token_2 : bytes := alloc 31 ++ [Byte.x01].


Section Derivation.

(** BLAKE2b with the given digest length and key, over a message; both
    [blake2b.batch] of blake2b-universal and libsodium's
    [crypto_generichash_batch] compute it over the buffers of the batch
    taken one after the other, as one stream.  The primitives are total
    here: the sizes for which the libraries refuse a key or a buffer are
    not modelled. *)
Variable blake2b : nat → bytes → bytes → bytes.

(** The Ed25519 key pair of a seed: public key and secret key. *)
Variable ed25519_keypair : bytes → bytes * bytes.

(** [blake2b.batch(output, batch, key)] and
    [sodium.crypto_generichash_batch(output, batch, key)]: the digest has
    the length of [output] and is written into it. *)
Definition blake2b_batch (output : bytes) (batch : list bytes) (key : bytes) : M bytes :=
  let* _ := log (EvHash (length output) key (concat batch)) in
  ret (fill_buffer output (blake2b (length output) key (concat batch))).

(** [sodium.crypto_sign_seed_keypair(pk, sk, seed)]: fills both buffers. *)
Definition crypto_sign_seed_keypair (pk sk seed : bytes) : M (bytes * bytes) :=
  let* _ := log (EvKeygen seed) in
  ret (fill_buffer pk (ed25519_keypair seed).1, fill_buffer sk (ed25519_keypair seed).2).

(** The detached Ed25519 signature of a message under a secret key. *)
Variable ed25519_sign : bytes → bytes → bytes.

(** [sodium.crypto_sign_detached(signature, message, sk)]: fills the
    signature buffer. *)
Definition crypto_sign_detached (signature message sk : bytes) : M bytes :=
  ret (fill_buffer signature (ed25519_sign message sk)).

(** *** lib/keys.js *)

(** [_sign(keyPair, message)]; of the key pair only its [_secretKey] is
    looked at, absent here when the object has no such field. *)
Definition _sign (_secretKey : option bytes) (message : bytes) : M bytes :=
  match _secretKey with
  | None => throw (Error "Invalid key pair")
  | Some sk =>
    let* signature := allocUnsafe crypto_sign_BYTES in
    crypto_sign_detached signature message sk
  end.

(** The [sign] closure that [createHypercoreKeyPair] puts into the key
    pair it returns: [(msg) => this._sign(keyPair, msg)], the secret key of
    the record being the object's [_secretKey]. *)
Definition sign (keyPair : KeyPair) (msg : bytes) : M bytes :=
  _sign (Some (secretKey keyPair)) msg.

(** What [deriveSeed] hashes: the domain tag, the token or the empty
    default, and the name behind its length and a line feed. *)
Definition seed_batch (token : option bytes) (name : jsstring) : list bytes :=
  [ NAMESPACE;
    default DEFAULT_TOKEN token;
    Buffer_from_ascii (decimal (Buffer_byteLength_ascii name) ++ js_newline ++ name) ].

Definition deriveSeed (profile : bytes) (token : option bytes) (name : jsval)
    (output : option bytes) : M bytes :=
  if match token with Some t => (length t <? 32)%nat | None => false end
  then throw token_error
  else if negb (truthy name) || negb (bool_decide (typeof name = "string"))
  then throw name_error
  else
    let output := default (alloc 32) output in
    blake2b_batch output (seed_batch token (string_of name)) profile.

Definition createSecret (this : KeyManager) (name : jsval) (token : option bytes) : M bytes :=
  deriveSeed (profile this) token name None.

Definition createHypercoreKeyPair (this : KeyManager) (name : jsval)
    (token : option bytes) : M KeyPair :=
  let* publicKey := allocUnsafe crypto_sign_PUBLICKEYBYTES in
  let _secretKey := alloc crypto_sign_SECRETKEYBYTES in
  let* seed := createSecret this name token in
  let* kp := crypto_sign_seed_keypair publicKey _secretKey seed in
  ret (mkKeyPair kp.1 kp.2).

Definition createNetworkIdentity (this : KeyManager) (name : jsval)
    (token : option bytes) : M KeyPair :=
  let publicKey := alloc 32 in
  let secretKey := alloc 64 in
  let* seed := createSecret this name token in
  let* kp := crypto_sign_seed_keypair publicKey secretKey seed in
  ret (mkKeyPair kp.1 kp.2).

Definition createToken : M bytes := randomBytes 32.

(** [opts.name || 'default']. *)
Definition slot_name (opts : Opts) : string :=
  match name opts with
  | Some n => if bool_decide (n = "") then "default" else n
  | None => "default"
  end.

(** The generating branch of [fromStorage]: 32 random bytes, written at
    the start of the slot. *)
Definition generate_profile (profileStorage : string) : M bytes :=
  let* key := randomBytes 32 in
  let* err := write profileStorage 0 key in
  match err with Some e => throw e | None => ret key end.

(** [KeyManager.fromStorage(storage, opts)]; [storage] maps a name to a
    storage object, here to the path of its slot. *)
Definition fromStorage (storage : string → string) (opts : Opts) : M KeyManager :=
  let profileStorage := storage (slot_name opts) in
  let* profile :=
    (let* r := stat profileStorage in
     let err := r.1 in
     let st_size := r.2 in
     match err with
     | Some e =>
       (* [if (err && err.code !== 'ENOENT') return reject(err)] *)
       if negb (bool_decide (code_of e = Some "ENOENT")) then throw e
       else generate_profile profileStorage
     | None =>
       (* [if (err || st.size < 32 || opts.overwrite)] *)
       if (st_size <? 32)%nat || overwrite opts
       then generate_profile profileStorage
       else
         let* r := read profileStorage 0 32 in
         match r with inl e => throw e | inr key => ret key end
     end) in
  ret (mkKeyManager profileStorage profile).

(** *** The standalone derivation of the store's tests

    [createKeyPair(prefix, namespace, name, pk)], the derivation that the
    store has to reproduce. *)
Definition createKeyPair (prefix namespace : bytes) (name : jsstring) (pk : bytes) : M KeyPair :=
  let name := Buffer_from name in
  let seed := alloc 32 in
  let* seed := blake2b_batch seed [prefix; namespace; name] pk in
  let* publicKey := allocUnsafe crypto_sign_PUBLICKEYBYTES in
  let secretKey := alloc crypto_sign_SECRETKEYBYTES in
  let* kp := crypto_sign_seed_keypair publicKey secretKey seed in
  ret (mkKeyPair kp.1 kp.2).

(** *** Namespaces *)

(** The hash that chains namespace discriminators. *)
Variable Hash : bytes → bytes → bytes.



(** *** Notions used in the statements *)

(** A token passes when it is absent or has at least 32 bytes. *)
Definition token_ok (token : option bytes) : Prop :=
  match token with Some t => 32 ≤ length t | None => True end.

(** A name is rejected when it is the empty string or not a string. *)
Definition name_rejected (name : jsval) : Prop :=
  name = JString [] ∨ typeof name ≠ "string".

(** The seed that [deriveSeed] delivers on accepted arguments. *)
Definition seed_of (profile : bytes) (token : option bytes) (s : jsstring)
    (output : option bytes) : bytes :=
  let out := default (alloc 32) output in
  fill_buffer out (blake2b (length out) profile (concat (seed_batch token s))).

(** The bytes that [deriveSeed] feeds to the hash. *)
Definition seed_message (token : option bytes) (s : jsstring) : bytes :=
  concat (seed_batch token s).

(** The key pair that the signature scheme makes of a seed, as it lands
    in a public-key buffer [pk] and a zeroed secret-key buffer. *)
Definition keypair_in (pk seed : bytes) : KeyPair :=
  mkKeyPair (fill_buffer pk (ed25519_keypair seed).1)
            (fill_buffer (alloc 64) (ed25519_keypair seed).2).

(** The error of a rejected name: that of the token check when the token
    is too short, the name's own otherwise. *)
Definition rejection (token : option bytes) : exn :=
  match token with
  | Some t => if decide (length t < 32) then token_error else name_error
  | None => name_error
  end.

(** What it means for the primitives not to collide at two given inputs:
    equal digests only for equal messages, equal public keys only for equal
    seeds. *)
Definition collision_free (key m1 m2 : bytes) : Prop :=
  blake2b 32 key m1 = blake2b 32 key m2 → m1 = m2.

Definition distinct_public_keys (seed1 seed2 : bytes) : Prop :=
  (ed25519_keypair seed1).1 = (ed25519_keypair seed2).1 → seed1 = seed2.

(** The bytes that the standalone derivation feeds to the hash. *)
Definition keypair_message (prefix namespace : bytes) (leaf : jsstring) : bytes :=
  prefix ++ namespace ++ Buffer_from leaf.

(** The bytes that a slot holds; a slot that does not exist holds none. *)
Definition holds (w : World) (path : string) (content : bytes) : Prop :=
  files w !! path = Some (Data content) ∨ (files w !! path = None ∧ content = []).

(** The world after a profile has been generated into a slot that held
    [content]. *)
Definition generated (path : string) (content : bytes) (w : World) : World :=
  store path (next_entropy 32 w ++ drop 32 content)
    (record (EvWrite path 0 (next_entropy 32 w))
       (record (EvRandom 32) (take_entropy 32 (take_stale 32 w)))).

(** A name all of whose code units are below 256. *)
Definition latin1 (s : jsstring) : Prop := Forall (λ c, (c < 256)%N) s.

(** A decimal digit, as a code unit. *)
Definition is_digit (c : N) : Prop := (48 ≤ c ∧ c ≤ 57)%N.

(** A name behind its length and a line feed, as [deriveSeed] writes it
    before it encodes it. *)
Definition length_prefixed (s : jsstring) : jsstring :=
  decimal (Buffer_byteLength_ascii s) ++ js_newline ++ s.

(** *** What is assumed of the primitives *)

(** What the primitives guarantee about sizes: a digest has the length
    that was asked for, an Ed25519 public key has 32 bytes. *)
Hypothesis blake2b_length :
  ∀ n key msg, length (blake2b n key msg) = n.
Hypothesis ed25519_public_length :
  ∀ seed, length (ed25519_keypair seed).1 = crypto_sign_PUBLICKEYBYTES.
Hypothesis ed25519_secret_length :
  ∀ seed, length (ed25519_keypair seed).2 = crypto_sign_SECRETKEYBYTES.
Hypothesis ed25519_signature_length :
  ∀ message sk, length (ed25519_sign message sk) = crypto_sign_BYTES.

(** * Properties *)

Arguments alloc : simpl never.
Arguments fill_buffer : simpl never.
Arguments record : simpl never.
Arguments take_stale : simpl never.
Arguments take_entropy : simpl never.
Arguments next_stale : simpl never.
Arguments next_entropy : simpl never.
Arguments store : simpl never.
Arguments Buffer_from : simpl never.

(** ** Buffers *)

Lemma length_fill_buffer (buf data : bytes) :
  length (fill_buffer buf data) = length buf.
Proof.
  unfold fill_buffer. rewrite length_app, length_take, length_drop. lia.
Qed.

Lemma fill_buffer_whole (buf data : bytes) :
  length data = length buf → fill_buffer buf data = data.
Proof.
  intros Hlen. unfold fill_buffer.
  rewrite take_ge, drop_ge by lia. apply app_nil_r.
Qed.

Lemma length_alloc (n : nat) : length (alloc n) = n.
Proof. apply repeat_length. Qed.

Lemma length_next_stale (n : nat) (w : World) : length (next_stale n w) = n.
Proof. unfold next_stale. by rewrite length_map, length_seq. Qed.

Lemma length_next_entropy (n : nat) (w : World) : length (next_entropy n w) = n.
Proof. unfold next_entropy. by rewrite length_map, length_seq. Qed.

(** ** The argument checks of [deriveSeed] *)

Lemma name_rejected_guard (name : jsval) :
  name_rejected name →
  negb (truthy name) || negb (bool_decide (typeof name = "string")) = true.
Proof.
  intros [-> | Hty]; [reflexivity|].
  rewrite (bool_decide_eq_false_2 _ Hty). apply orb_true_r.
Qed.

Lemma name_accepted_guard (s : jsstring) :
  s ≠ [] →
  negb (truthy (JString s)) || negb (bool_decide (typeof (JString s) = "string")) = false.
Proof.
  intros Hs. simpl. by rewrite (bool_decide_eq_false_2 _ Hs).
Qed.

Lemma token_ok_guard (token : option bytes) :
  token_ok token →
  match token with Some t => (length t <? 32)%nat | None => false end = false.
Proof.
  destruct token as [t|]; simpl; [|done].
  intros Hlen. apply Nat.ltb_ge. exact Hlen.
Qed.

Lemma deriveSeed_short_token profile (t : bytes) name output w :
  length t < 32 →
  deriveSeed profile (Some t) name output w = (Throw token_error, w).
Proof.
  intros Hlen. unfold deriveSeed.
  by rewrite (proj2 (Nat.ltb_lt _ _) Hlen).
Qed.

Lemma deriveSeed_rejected_name profile token name output w :
  token_ok token → name_rejected name →
  deriveSeed profile token name output w = (Throw name_error, w).
Proof.
  intros Htok Hname. unfold deriveSeed.
  by rewrite (token_ok_guard _ Htok), (name_rejected_guard _ Hname).
Qed.

Lemma deriveSeed_accepted profile token (s : jsstring) output w :
  token_ok token → s ≠ [] →
  deriveSeed profile token (JString s) output w =
    (Return (seed_of profile token s output),
     record (EvHash (length (default (alloc 32) output)) profile
                    (concat (seed_batch token s))) w).
Proof.
  intros Htok Hs. unfold deriveSeed.
  rewrite (token_ok_guard _ Htok), (name_accepted_guard _ Hs).
  reflexivity.
Qed.

(** Every outcome of the two checks, in the order of the code. *)
Lemma deriveSeed_cases profile token name output w :
  (∃ t, token = Some t ∧ length t < 32 ∧
        deriveSeed profile token name output w = (Throw token_error, w))
  ∨ (token_ok token ∧ name_rejected name ∧
        deriveSeed profile token name output w = (Throw name_error, w))
  ∨ (∃ s, token_ok token ∧ name = JString s ∧ s ≠ [] ∧
        deriveSeed profile token name output w =
          (Return (seed_of profile token s output),
           record (EvHash (length (default (alloc 32) output)) profile
                          (concat (seed_batch token s))) w)).
Proof.
  assert (Hname : name_rejected name ∨ ∃ s, name = JString s ∧ s ≠ []).
  { destruct name as [| |b|z|s|b|]; try (by left; right).
    destruct (decide (s = [])) as [->|Hs]; [by left; left|right; eauto]. }
  assert (Htok : (∃ t, token = Some t ∧ length t < 32) ∨ token_ok token).
  { destruct token as [t|]; [|by right].
    destruct (decide (length t < 32)); [left; eauto|right; simpl; lia]. }
  destruct Htok as [(t & -> & Hlt)|Htok].
  { left. exists t. eauto using deriveSeed_short_token. }
  right. destruct Hname as [Hrej|(s & -> & Hs)].
  - left. eauto using deriveSeed_rejected_name.
  - right. exists s. eauto using deriveSeed_accepted.
Qed.

(** ** Key pairs *)

Lemma seed_of_default profile token s :
  seed_of profile token s None = blake2b 32 profile (seed_message token s).
Proof.
  unfold seed_of, seed_message. cbv zeta.
  change (default (alloc 32) None) with (alloc 32). rewrite length_alloc.
  apply fill_buffer_whole. by rewrite blake2b_length, length_alloc.
Qed.

Lemma keypair_in_any_buffer (pk seed : bytes) :
  length pk = 32 → keypair_in pk seed = keypair_in (alloc 32) seed.
Proof.
  intros Hpk. unfold keypair_in. f_equal.
  rewrite !fill_buffer_whole; [done| |];
    rewrite ed25519_public_length; by rewrite ?length_alloc, ?Hpk.
Qed.

Lemma deriveSeed_accepted_default profile token (s : jsstring) w :
  token_ok token → s ≠ [] →
  deriveSeed profile token (JString s) None w =
    (Return (seed_of profile token s None),
     record (EvHash 32 profile (seed_message token s)) w).
Proof.
  intros Htok Hs. rewrite (deriveSeed_accepted _ _ _ _ _ Htok Hs).
  change (default (alloc 32) None) with (alloc 32).
  rewrite length_alloc. unfold seed_message. reflexivity.
Qed.

Lemma crypto_sign_seed_keypair_eq pk seed w :
  bind (crypto_sign_seed_keypair pk (alloc 64) seed)
       (λ kp, ret (mkKeyPair kp.1 kp.2)) w
  = (Return (keypair_in pk seed), record (EvKeygen seed) w).
Proof. reflexivity. Qed.

Lemma createSecret_eq this name token w :
  createSecret this name token w = deriveSeed (profile this) token name None w.
Proof. reflexivity. Qed.

Lemma createNetworkIdentity_throws this name token w e :
  deriveSeed (profile this) token name None w = (Throw e, w) →
  createNetworkIdentity this name token w = (Throw e, w).
Proof.
  intros H. unfold createNetworkIdentity. unfold bind at 1.
  by rewrite createSecret_eq, H.
Qed.

Lemma createNetworkIdentity_returns this s token w :
  token_ok token → s ≠ [] →
  createNetworkIdentity this (JString s) token w =
    (Return (keypair_in (alloc 32) (seed_of (profile this) token s None)),
     record (EvKeygen (seed_of (profile this) token s None))
       (record (EvHash 32 (profile this) (seed_message token s)) w)).
Proof.
  intros Htok Hs. unfold createNetworkIdentity.
  unfold bind at 1.
  rewrite createSecret_eq, (deriveSeed_accepted_default _ _ _ _ Htok Hs).
  apply crypto_sign_seed_keypair_eq.
Qed.

Lemma createHypercoreKeyPair_throws this name token w e :
  deriveSeed (profile this) token name None (take_stale 32 w)
    = (Throw e, take_stale 32 w) →
  createHypercoreKeyPair this name token w = (Throw e, take_stale 32 w).
Proof.
  intros H. unfold createHypercoreKeyPair.
  unfold crypto_sign_PUBLICKEYBYTES, crypto_sign_SECRETKEYBYTES.
  unfold bind at 1, allocUnsafe. unfold bind at 1.
  by rewrite createSecret_eq, H.
Qed.

Lemma createHypercoreKeyPair_returns this s token w :
  token_ok token → s ≠ [] →
  createHypercoreKeyPair this (JString s) token w =
    (Return (keypair_in (next_stale 32 w) (seed_of (profile this) token s None)),
     record (EvKeygen (seed_of (profile this) token s None))
       (record (EvHash 32 (profile this) (seed_message token s)) (take_stale 32 w))).
Proof.
  intros Htok Hs. unfold createHypercoreKeyPair.
  unfold crypto_sign_PUBLICKEYBYTES, crypto_sign_SECRETKEYBYTES.
  unfold bind at 1, allocUnsafe. unfold bind at 1.
  rewrite createSecret_eq, (deriveSeed_accepted_default _ _ _ _ Htok Hs).
  apply crypto_sign_seed_keypair_eq.
Qed.

Lemma createKeyPair_returns prefix namespace leaf pk w :
  createKeyPair prefix namespace leaf pk w =
    (Return (keypair_in (next_stale 32 (record (EvHash 32 pk (prefix ++ namespace ++ Buffer_from leaf)) w))
                        (blake2b 32 pk (prefix ++ namespace ++ Buffer_from leaf))),
     record (EvKeygen (blake2b 32 pk (prefix ++ namespace ++ Buffer_from leaf)))
       (take_stale 32 (record (EvHash 32 pk (prefix ++ namespace ++ Buffer_from leaf)) w))).
Proof.
  unfold createKeyPair.
  unfold crypto_sign_PUBLICKEYBYTES, crypto_sign_SECRETKEYBYTES.
  unfold bind at 1, blake2b_batch.
  unfold bind at 1, log, ret.
  rewrite length_alloc.
  replace (concat [prefix; namespace; Buffer_from leaf])
    with (prefix ++ namespace ++ Buffer_from leaf)
    by (cbn [concat]; by rewrite app_nil_r).
  rewrite (fill_buffer_whole (alloc 32)) by by rewrite blake2b_length, length_alloc.
  unfold bind at 1, allocUnsafe.
  apply crypto_sign_seed_keypair_eq.
Qed.

Lemma InvalidArgument_token : InvalidArgument token_error.
Proof. by left. Qed.

Lemma InvalidArgument_name : InvalidArgument name_error.
Proof. by right. Qed.

Lemma rejection_invalid token : InvalidArgument (rejection token).
Proof.
  unfold rejection. destruct token as [t|]; [case_decide|];
    auto using InvalidArgument_token, InvalidArgument_name.
Qed.

Lemma deriveSeed_rejection profile token name output w :
  name_rejected name →
  deriveSeed profile token name output w = (Throw (rejection token), w).
Proof.
  intros Hname. unfold rejection. destruct token as [t|].
  - case_decide.
    + by apply deriveSeed_short_token.
    + apply deriveSeed_rejected_name; [simpl; lia|done].
  - by apply deriveSeed_rejected_name.
Qed.

(** C4. A name that is the empty string or not a string makes
    [deriveSeed], and with it [createSecret], [createHypercoreKeyPair] and
    [createNetworkIdentity], fail with an InvalidArgument error; the trace
    of hashing, key generation and storage calls and the storage slots are
    then as before the call.  A non-empty string never raises the name
    error, and with an absent token or one of at least 32 bytes a 32-byte
    seed and the key pairs are returned. *)
Theorem name_check_precedes_hashing (this : KeyManager) (token : option bytes)
    (name : jsval) (output : option bytes) (w : World) :
  (name_rejected name →
     ∃ e, InvalidArgument e
       ∧ deriveSeed (profile this) token name output w = (Throw e, w)
       ∧ createSecret this name token w = (Throw e, w)
       ∧ createNetworkIdentity this name token w = (Throw e, w)
       ∧ (createHypercoreKeyPair this name token w).1 = Throw e
       ∧ trace (createHypercoreKeyPair this name token w).2 = trace w
       ∧ files (createHypercoreKeyPair this name token w).2 = files w)
  ∧ (∀ s, name = JString s → s ≠ [] →
       (deriveSeed (profile this) token name output w).1 ≠ Throw name_error
       ∧ (createSecret this name token w).1 ≠ Throw name_error
       ∧ (createHypercoreKeyPair this name token w).1 ≠ Throw name_error
       ∧ (createNetworkIdentity this name token w).1 ≠ Throw name_error
       ∧ (token_ok token →
            ∃ seed kp kp',
              (createSecret this name token w).1 = Return seed
              ∧ length seed = 32
              ∧ (createHypercoreKeyPair this name token w).1 = Return kp
              ∧ (createNetworkIdentity this name token w).1 = Return kp')).
Proof.
  split.
  - intros Hname. exists (rejection token).
    split; [apply rejection_invalid|].
    split; [by apply deriveSeed_rejection|].
    split; [by apply deriveSeed_rejection|].
    split; [by apply createNetworkIdentity_throws, deriveSeed_rejection|].
    rewrite (createHypercoreKeyPair_throws _ _ _ _ (rejection token))
      by by apply deriveSeed_rejection.
    done.
  - intros s -> Hs.
    destruct (deriveSeed_cases (profile this) token (JString s) output w)
      as [(t & -> & Hlt & Hrun)|[(Htok & Hrej & _)|(s' & Htok & Heq & _ & Hrun)]].
    + split; [by rewrite Hrun|].
      split; [by rewrite createSecret_eq, deriveSeed_short_token|].
      split.
      { rewrite (createHypercoreKeyPair_throws _ _ _ _ token_error)
          by by apply deriveSeed_short_token.
        done. }
      split.
      { rewrite (createNetworkIdentity_throws _ _ _ _ token_error)
          by by apply deriveSeed_short_token.
        done. }
      simpl. lia.
    + destruct Hrej as [[= ->]|Hty]; [done|]. by destruct Hty.
    + injection Heq as <-.
      split; [by rewrite Hrun|].
      rewrite createSecret_eq, deriveSeed_accepted_default by done.
      rewrite createHypercoreKeyPair_returns, createNetworkIdentity_returns by done.
      do 3 (split; [done|]). intros _.
      eexists _, _, _. split; [done|]. split; [|done].
      unfold seed_of. rewrite length_fill_buffer. apply length_alloc.
Qed.

(** C5. A token shorter than 32 bytes makes [deriveSeed] and the
    operations built on it fail with the token error, an InvalidArgument,
    whatever the name, and no seed or key pair is returned; an absent
    token and a token of 32 bytes or more never raise it. *)
Theorem short_token_is_rejected (this : KeyManager) (token : option bytes)
    (name : jsval) (output : option bytes) (w : World) :
  (∀ t, token = Some t → length t < 32 →
     InvalidArgument token_error
     ∧ deriveSeed (profile this) token name output w = (Throw token_error, w)
     ∧ createSecret this name token w = (Throw token_error, w)
     ∧ (createHypercoreKeyPair this name token w).1 = Throw token_error
     ∧ createNetworkIdentity this name token w = (Throw token_error, w))
  ∧ (token_ok token →
     (deriveSeed (profile this) token name output w).1 ≠ Throw token_error
     ∧ (createSecret this name token w).1 ≠ Throw token_error
     ∧ (createHypercoreKeyPair this name token w).1 ≠ Throw token_error
     ∧ (createNetworkIdentity this name token w).1 ≠ Throw token_error).
Proof.
  split.
  - intros t -> Hlt.
    split; [apply InvalidArgument_token|].
    split; [by apply deriveSeed_short_token|].
    split; [by apply deriveSeed_short_token|].
    split; [|by apply createNetworkIdentity_throws, deriveSeed_short_token].
    by rewrite (createHypercoreKeyPair_throws _ _ _ _ token_error)
      by by apply deriveSeed_short_token.
  - intros Htok.
    destruct (deriveSeed_cases (profile this) token name output w)
      as [(t & -> & Hlt & _)|[(_ & Hrej & Hrun)|(s & _ & -> & Hs & Hrun)]].
    + simpl in Htok. lia.
    + split; [by rewrite Hrun|].
      split; [by rewrite createSecret_eq, deriveSeed_rejected_name|].
      split.
      * by rewrite (createHypercoreKeyPair_throws _ _ _ _ name_error)
          by by apply deriveSeed_rejected_name.
      * by rewrite (createNetworkIdentity_throws _ _ _ _ name_error)
          by by apply deriveSeed_rejected_name.
    + split; [by rewrite Hrun|].
      rewrite createSecret_eq, deriveSeed_accepted_default by done.
      by rewrite createHypercoreKeyPair_returns, createNetworkIdentity_returns.
Qed.

Lemma publicKey_keypair_in (pk seed : bytes) :
  length pk = 32 → publicKey (keypair_in pk seed) = (ed25519_keypair seed).1.
Proof.
  intros Hpk. unfold keypair_in. cbn [publicKey].
  apply fill_buffer_whole. by rewrite ed25519_public_length, Hpk.
Qed.

Lemma deriveSeed_state_independent profile token name output w1 w2 :
  (deriveSeed profile token name output w1).1
  = (deriveSeed profile token name output w2).1.
Proof.
  destruct (deriveSeed_cases profile token name output w1)
    as [(t & -> & Hlt & ->)|[(Htok & Hrej & ->)|(s & Htok & -> & Hs & ->)]].
  - by rewrite deriveSeed_short_token.
  - by rewrite deriveSeed_rejected_name.
  - by rewrite deriveSeed_accepted.
Qed.

(** C1. Key derivation is a function of its arguments alone: with the
    same profile, name and token (and output buffer), [deriveSeed],
    [createSecret], [createHypercoreKeyPair] and [createNetworkIdentity]
    give the same outcome, seed or key pair byte for byte, from any two
    states of the world (storage, entropy, stale memory, trace) and from
    any two managers that hold the profile; so does the standalone
    derivation from application id, namespace, name and primary key. *)
Theorem key_derivation_is_deterministic (this1 this2 : KeyManager)
    (name : jsval) (token output : option bytes) (w1 w2 : World) :
  profile this1 = profile this2 →
  (deriveSeed (profile this1) token name output w1).1
    = (deriveSeed (profile this2) token name output w2).1
  ∧ (createSecret this1 name token w1).1 = (createSecret this2 name token w2).1
  ∧ (createHypercoreKeyPair this1 name token w1).1
    = (createHypercoreKeyPair this2 name token w2).1
  ∧ (createNetworkIdentity this1 name token w1).1
    = (createNetworkIdentity this2 name token w2).1
  ∧ (∀ application namespace leaf,
       (createKeyPair application namespace leaf (profile this1) w1).1
       = (createKeyPair application namespace leaf (profile this2) w2).1).
Proof.
  intros Hprofile.
  split; [rewrite Hprofile; apply deriveSeed_state_independent|].
  split; [rewrite !createSecret_eq, Hprofile; apply deriveSeed_state_independent|].
  split; [|split].
  - destruct (deriveSeed_cases (profile this1) token name None w1)
      as [(t & -> & Hlt & _)|[(Htok & Hrej & _)|(s & Htok & -> & Hs & _)]].
    + rewrite !(createHypercoreKeyPair_throws _ _ _ _ token_error)
        by by apply deriveSeed_short_token.
      done.
    + rewrite !(createHypercoreKeyPair_throws _ _ _ _ name_error)
        by by apply deriveSeed_rejected_name.
      done.
    + rewrite !createHypercoreKeyPair_returns by done. cbn [fst].
      rewrite Hprofile.
      by rewrite !(keypair_in_any_buffer (next_stale 32 _))
        by apply length_next_stale.
  - destruct (deriveSeed_cases (profile this1) token name None w1)
      as [(t & -> & Hlt & _)|[(Htok & Hrej & _)|(s & Htok & -> & Hs & _)]].
    + rewrite !(createNetworkIdentity_throws _ _ _ _ token_error)
        by by apply deriveSeed_short_token.
      done.
    + rewrite !(createNetworkIdentity_throws _ _ _ _ name_error)
        by by apply deriveSeed_rejected_name.
      done.
    + rewrite !createNetworkIdentity_returns by done. cbn [fst].
      by rewrite Hprofile.
  - intros application namespace leaf.
    rewrite !createKeyPair_returns. cbn [fst]. rewrite Hprofile.
    by rewrite !(keypair_in_any_buffer (next_stale 32 _))
      by apply length_next_stale.
Qed.

(** C10. For a name and a token that the derivation accepts,
    [createHypercoreKeyPair] and [createNetworkIdentity] of one manager
    return key pairs with the same public key of 32 bytes, the Ed25519
    public key of the seed that [createSecret] gives. *)
Theorem network_identity_has_the_hypercore_key (this : KeyManager)
    (s : jsstring) (token : option bytes) (w1 w2 : World) :
  token_ok token → s ≠ [] →
  ∃ kp kp',
    (createHypercoreKeyPair this (JString s) token w1).1 = Return kp
    ∧ (createNetworkIdentity this (JString s) token w2).1 = Return kp'
    ∧ publicKey kp = publicKey kp'
    ∧ length (publicKey kp) = 32
    ∧ publicKey kp = (ed25519_keypair (seed_of (profile this) token s None)).1.
Proof.
  intros Htok Hs.
  rewrite createHypercoreKeyPair_returns, createNetworkIdentity_returns by done.
  eexists _, _. split; [done|]. split; [done|].
  rewrite !publicKey_keypair_in
    by (by rewrite ?length_next_stale, ?length_alloc).
  split; [done|]. split; [apply ed25519_public_length|done].
Qed.

Lemma seed_message_token_injective (t1 t2 : bytes) (s : jsstring) :
  seed_message (Some t1) s = seed_message (Some t2) s → t1 = t2.
Proof.
  unfold seed_message, seed_batch. cbn [concat default from_option id].
  intros H. apply app_inv_head in H. by apply app_inv_tail in H.
Qed.

(** C6. Two different tokens of at least 32 bytes give, for the same
    name, different hash inputs; the seeds and the public keys of the two
    key pairs then differ whenever the hash does not collide on these two
    inputs and the signature scheme does not give the two seeds the same
    public key. *)
Theorem distinct_tokens_give_distinct_keys (this : KeyManager) (s : jsstring)
    (t1 t2 : bytes) (w1 w2 : World) :
  s ≠ [] → 32 ≤ length t1 → 32 ≤ length t2 → t1 ≠ t2 →
  seed_message (Some t1) s ≠ seed_message (Some t2) s
  ∧ (collision_free (profile this) (seed_message (Some t1) s) (seed_message (Some t2) s) →
     distinct_public_keys (blake2b 32 (profile this) (seed_message (Some t1) s))
                          (blake2b 32 (profile this) (seed_message (Some t2) s)) →
     ∃ kp1 kp2,
       (createHypercoreKeyPair this (JString s) (Some t1) w1).1 = Return kp1
       ∧ (createHypercoreKeyPair this (JString s) (Some t2) w2).1 = Return kp2
       ∧ publicKey kp1 ≠ publicKey kp2).
Proof.
  intros Hs H1 H2 Hne.
  assert (Hmsg : seed_message (Some t1) s ≠ seed_message (Some t2) s)
    by (intros Heq; by apply Hne, (seed_message_token_injective _ _ s)).
  split; [done|]. intros Hhash Hkeys.
  rewrite !createHypercoreKeyPair_returns by done.
  eexists _, _. split; [done|]. split; [done|].
  rewrite !publicKey_keypair_in by apply length_next_stale.
  rewrite !seed_of_default. intros Heq. by apply Hmsg, Hhash, Hkeys.
Qed.

(** ** Application id and namespace in the standalone derivation *)

Lemma keypair_message_application (app1 app2 ns : bytes) (leaf : jsstring) :
  keypair_message app1 ns leaf = keypair_message app2 ns leaf → app1 = app2.
Proof. unfold keypair_message. apply app_inv_tail. Qed.


Lemma createKeyPair_distinct app1 ns1 app2 ns2 leaf pk w1 w2 :
  keypair_message app1 ns1 leaf ≠ keypair_message app2 ns2 leaf →
  collision_free pk (keypair_message app1 ns1 leaf) (keypair_message app2 ns2 leaf) →
  distinct_public_keys (blake2b 32 pk (keypair_message app1 ns1 leaf))
                       (blake2b 32 pk (keypair_message app2 ns2 leaf)) →
  ∃ kp1 kp2,
    (createKeyPair app1 ns1 leaf pk w1).1 = Return kp1
    ∧ (createKeyPair app2 ns2 leaf pk w2).1 = Return kp2
    ∧ publicKey kp1 ≠ publicKey kp2.
Proof.
  intros Hmsg Hhash Hkeys. rewrite !createKeyPair_returns.
  eexists _, _. split; [done|]. split; [done|].
  rewrite !publicKey_keypair_in by apply length_next_stale.
  intros Heq. by apply Hmsg, Hhash, Hkeys.
Qed.

Lemma keypair_message_assoc (app ns : bytes) (leaf : jsstring) :
  keypair_message app ns leaf = (app ++ ns) ++ Buffer_from leaf.
Proof. unfold keypair_message. by rewrite (assoc_L (++)). Qed.

Lemma keypair_message_concatenation (app1 ns1 app2 ns2 : bytes) (leaf : jsstring) :
  keypair_message app1 ns1 leaf = keypair_message app2 ns2 leaf
  ↔ app1 ++ ns1 = app2 ++ ns2.
Proof.
  rewrite !keypair_message_assoc. split; [apply app_inv_tail|by intros ->].
Qed.

Lemma concatenation_changes (app1 ns1 app2 ns2 : bytes) :
  app1 ≠ app2 ∨ ns1 ≠ ns2 →
  length app1 = length app2 ∨ length ns1 = length ns2 →
  app1 ++ ns1 ≠ app2 ++ ns2.
Proof.
  intros Hchange Hlen Heq.
  assert (Happ : length app1 = length app2).
  { destruct Hlen as [Hlen|Hlen]; [done|].
    apply (f_equal length) in Heq. rewrite !length_app in Heq. lia. }
  destruct (app_inj_1 _ _ _ _ Happ Heq) as [? ?].
  by destruct Hchange.
Qed.

(** C2, as the code has it.  The standalone derivation hashes the
    application id, the namespace and the name back to back under the
    primary key, with nothing between them.  The hash input of two
    derivations with the same name is the same exactly when the application
    id followed by the namespace is the same string of bytes.  A change of
    the application id, of the namespace or of both that changes this
    string changes the public key, whenever the hash does not collide on
    the two inputs and the signature scheme does not give the two seeds the
    same public key; it always changes the string when the two application
    ids, or the two namespaces, have the same length, so in particular
    when only one of the two is changed.  A change that leaves the string
    as it is gives the same key pair. *)
Theorem application_and_namespace_change_the_key
    (app1 ns1 app2 ns2 : bytes) (leaf : jsstring) (pk : bytes) (w1 w2 : World) :
  (keypair_message app1 ns1 leaf = keypair_message app2 ns2 leaf
   ↔ app1 ++ ns1 = app2 ++ ns2)
  ∧ (app1 ≠ app2 ∨ ns1 ≠ ns2 →
     length app1 = length app2 ∨ length ns1 = length ns2 →
     app1 ++ ns1 ≠ app2 ++ ns2)
  ∧ (app1 ++ ns1 ≠ app2 ++ ns2 →
     collision_free pk (keypair_message app1 ns1 leaf) (keypair_message app2 ns2 leaf) →
     distinct_public_keys (blake2b 32 pk (keypair_message app1 ns1 leaf))
                          (blake2b 32 pk (keypair_message app2 ns2 leaf)) →
     ∃ kp1 kp2,
       (createKeyPair app1 ns1 leaf pk w1).1 = Return kp1
       ∧ (createKeyPair app2 ns2 leaf pk w2).1 = Return kp2
       ∧ publicKey kp1 ≠ publicKey kp2)
  ∧ (app1 ++ ns1 = app2 ++ ns2 →
     createKeyPair app1 ns1 leaf pk w1 = createKeyPair app2 ns2 leaf pk w1).
Proof.
  split; [apply keypair_message_concatenation|].
  split; [apply concatenation_changes|].
  split.
  - intros Hne. apply createKeyPair_distinct.
    by rewrite keypair_message_concatenation.
  - intros Heq. apply keypair_message_concatenation with (leaf := leaf) in Heq.
    rewrite !createKeyPair_returns. unfold keypair_message in Heq.
    unfold keypair_message. by rewrite Heq.
Qed.

(** ** Namespaces *)




(** ** The profile slot *)

Lemma files_record e w : files (record e w) = files w.
Proof. reflexivity. Qed.

Lemma next_entropy_record n e w : next_entropy n (record e w) = next_entropy n w.
Proof. reflexivity. Qed.

Lemma files_take_entropy n w : files (take_entropy n w) = files w.
Proof. reflexivity. Qed.

Lemma files_take_stale n w : files (take_stale n w) = files w.
Proof. reflexivity. Qed.

Lemma randomBytes_run (n : nat) (w : World) :
  randomBytes n w =
    (Return (next_entropy n w), record (EvRandom n) (take_entropy n (take_stale n w))).
Proof.
  unfold randomBytes. unfold bind at 1, allocUnsafe, randombytes_buf.
  rewrite length_next_stale.
  rewrite fill_buffer_whole by by rewrite length_next_stale, length_next_entropy.
  reflexivity.
Qed.

Lemma write_at_start (data content : bytes) :
  write_at 0 data content = data ++ drop (length data) content.
Proof. reflexivity. Qed.

Lemma generate_profile_run (path : string) (w : World) (content : bytes) :
  holds w path content →
  generate_profile path w = (Return (next_entropy 32 w), generated path content w).
Proof.
  intros Hslot. unfold generate_profile. unfold bind at 1.
  rewrite randomBytes_run. unfold bind at 1, write. unfold bind at 1, log.
  rewrite files_record, files_record, files_take_entropy, files_take_stale.
  unfold generated.
  destruct Hslot as [->|[-> ->]]; rewrite write_at_start, length_next_entropy;
    reflexivity.
Qed.

Lemma fromStorage_generates storage opts w content :
  holds w (storage (slot_name opts)) content →
  length content < 32 ∨ overwrite opts = true →
  fromStorage storage opts w =
    (Return (mkKeyManager (storage (slot_name opts)) (next_entropy 32 w)),
     generated (storage (slot_name opts)) content
       (record (EvStat (storage (slot_name opts))) w)).
Proof.
  intros Hslot Hcond. unfold fromStorage. unfold bind at 1. unfold bind at 1.
  unfold stat. unfold bind at 1, log.
  rewrite !files_record.
  assert (Hafter : holds (record (EvStat (storage (slot_name opts))) w)
                         (storage (slot_name opts)) content) by exact Hslot.
  destruct Hslot as [Hdata|[Hnone ->]].
  - rewrite Hdata. cbn [fst snd].
    replace ((length content <? 32) || overwrite opts) with true.
    + by rewrite (generate_profile_run _ _ _ Hafter).
    + symmetry. destruct Hcond as [Hlt| ->]; [|apply orb_true_r].
      by rewrite (proj2 (Nat.ltb_lt _ _) Hlt).
  - rewrite Hnone. cbn [fst snd code_of]. rewrite bool_decide_eq_true_2 by done.
    cbn [negb]. by rewrite (generate_profile_run _ _ _ Hafter).
Qed.

Lemma fromStorage_reads storage opts w content :
  files w !! storage (slot_name opts) = Some (Data content) →
  32 ≤ length content → overwrite opts = false →
  fromStorage storage opts w =
    (Return (mkKeyManager (storage (slot_name opts)) (take 32 content)),
     record (EvRead (storage (slot_name opts)) 0 32)
       (record (EvStat (storage (slot_name opts))) w)).
Proof.
  intros Hdata Hlen Hopt. unfold fromStorage. unfold bind at 1. unfold bind at 1.
  unfold stat. unfold bind at 1, log.
  rewrite !files_record.
  rewrite Hdata. cbn [fst snd]. rewrite Hopt.
  rewrite (proj2 (Nat.ltb_ge _ _) Hlen). cbn [orb].
  unfold bind at 1, read. unfold bind at 1, log.
  rewrite !files_record, Hdata.
  rewrite (proj2 (Nat.leb_le (0 + 32) _) Hlen). reflexivity.
Qed.

(** Any other error of the driver is passed on. *)
Lemma fromStorage_rejects storage opts w code :
  files w !! storage (slot_name opts) = Some (Faulty code) →
  code ≠ "ENOENT" →
  fromStorage storage opts w =
    (Throw (StorageError code), record (EvStat (storage (slot_name opts))) w).
Proof.
  intros Hslot Hcode. unfold fromStorage. unfold bind at 1. unfold bind at 1.
  unfold stat. unfold bind at 1, log.
  rewrite !files_record.
  rewrite Hslot. cbn [fst snd code_of].
  rewrite bool_decide_eq_false_2 by congruence. reflexivity.
Qed.

Lemma files_generated path content w :
  files (generated path content w) !! path
  = Some (Data (next_entropy 32 w ++ drop 32 content)).
Proof. unfold generated, store. cbn [files]. apply lookup_insert_eq. Qed.

Lemma drop_short (n : nat) (content : bytes) : length content < n → drop n content = [].
Proof. intros. apply drop_ge. lia. Qed.

(** C3, as the code has it.  With the [overwrite] option unset,
    [fromStorage] on a slot that does not exist, is empty or holds fewer
    than 32 bytes returns 32 bytes of fresh entropy as the profile and
    leaves exactly them in the slot; on a slot that holds 32 bytes or more
    it returns the first 32 of them and leaves the storage as it is.  In
    both cases a later open of a slot with that content, in whatever state
    the rest of the world is, returns the same profile. *)
Theorem fromStorage_reads_or_generates (storage : string → string) (opts : Opts)
    (w : World) :
  overwrite opts = false →
  (∀ content, holds w (storage (slot_name opts)) content → length content < 32 →
     (fromStorage storage opts w).1
       = Return (mkKeyManager (storage (slot_name opts)) (next_entropy 32 w))
     ∧ length (next_entropy 32 w) = 32
     ∧ files (fromStorage storage opts w).2 !! storage (slot_name opts)
       = Some (Data (next_entropy 32 w)))
  ∧ (∀ content,
       files w !! storage (slot_name opts) = Some (Data content) →
       32 ≤ length content →
       (fromStorage storage opts w).1
         = Return (mkKeyManager (storage (slot_name opts)) (take 32 content))
       ∧ files (fromStorage storage opts w).2 = files w)
  ∧ (∀ content, holds w (storage (slot_name opts)) content →
       ∃ this, (fromStorage storage opts w).1 = Return this
         ∧ length (profile this) = 32
         ∧ ∀ w', files w' !! storage (slot_name opts)
                 = files (fromStorage storage opts w).2 !! storage (slot_name opts) →
                 (fromStorage storage opts w').1 = Return this).
Proof.
  intros Hopt.
  assert (Hshort : ∀ content,
    holds w (storage (slot_name opts)) content → length content < 32 →
    (fromStorage storage opts w).1
      = Return (mkKeyManager (storage (slot_name opts)) (next_entropy 32 w))
    ∧ length (next_entropy 32 w) = 32
    ∧ files (fromStorage storage opts w).2 !! storage (slot_name opts)
      = Some (Data (next_entropy 32 w))).
  { intros content Hslot Hlen.
    rewrite (fromStorage_generates _ _ _ content) by auto. cbn [fst snd].
    split; [done|]. split; [apply length_next_entropy|].
    rewrite files_generated, drop_short by done. by rewrite app_nil_r. }
  assert (Hlong : ∀ content,
    files w !! storage (slot_name opts) = Some (Data content) →
    32 ≤ length content →
    (fromStorage storage opts w).1
      = Return (mkKeyManager (storage (slot_name opts)) (take 32 content))
    ∧ files (fromStorage storage opts w).2 = files w).
  { intros content Hslot Hlen. by rewrite (fromStorage_reads _ _ _ content). }
  split; [done|]. split; [done|].
  intros content Hslot.
  destruct (decide (length content < 32)) as [Hlt|Hge].
  - destruct (Hshort content Hslot Hlt) as (Hrun & Hlen & Hfiles).
    eexists. split; [exact Hrun|]. split; [exact Hlen|].
    intros w' Hsame. rewrite Hfiles in Hsame.
    rewrite (fromStorage_reads _ _ _ _ Hsame) by (by rewrite ?Hlen).
    cbn [fst]. by rewrite take_ge by by rewrite Hlen.
  - destruct Hslot as [Hdata|[_ ->]]; [|simpl in Hge; lia].
    destruct (Hlong content Hdata ltac:(lia)) as (Hrun & Hfiles).
    eexists. split; [exact Hrun|]. split; [apply length_take_le; lia|].
    intros w' Hsame. rewrite Hfiles, Hdata in Hsame.
    by rewrite (fromStorage_reads _ _ _ _ Hsame) by (done || lia).
Qed.

(** C9. With the [overwrite] option set, [fromStorage] returns 32 bytes of
    fresh entropy as the profile whatever the slot holds, a 32-byte profile
    included: it stats the slot, draws the bytes and writes them over the
    start of the slot, and reads nothing.  A later open of that slot
    without the option returns the new profile. *)
Theorem fromStorage_overwrite_regenerates (storage : string → string) (opts : Opts)
    (w : World) (content : bytes) :
  overwrite opts = true →
  holds w (storage (slot_name opts)) content →
  (fromStorage storage opts w).1
    = Return (mkKeyManager (storage (slot_name opts)) (next_entropy 32 w))
  ∧ length (next_entropy 32 w) = 32
  ∧ files (fromStorage storage opts w).2 !! storage (slot_name opts)
    = Some (Data (next_entropy 32 w ++ drop 32 content))
  ∧ trace (fromStorage storage opts w).2
    = trace w ++ [EvStat (storage (slot_name opts)); EvRandom 32;
                  EvWrite (storage (slot_name opts)) 0 (next_entropy 32 w)]
  ∧ (∀ opts' w',
       overwrite opts' = false →
       storage (slot_name opts') = storage (slot_name opts) →
       files w' !! storage (slot_name opts)
         = files (fromStorage storage opts w).2 !! storage (slot_name opts) →
       (fromStorage storage opts' w').1
         = Return (mkKeyManager (storage (slot_name opts)) (next_entropy 32 w))).
Proof.
  intros Hopt Hslot.
  rewrite (fromStorage_generates _ _ _ content) by auto. cbn [fst snd].
  split; [done|]. split; [apply length_next_entropy|].
  split; [by rewrite files_generated, next_entropy_record|].
  split.
  { unfold generated, store, record, take_entropy, take_stale. cbn [trace].
    by rewrite <- !app_assoc. }
  intros opts' w' Hopt' Hpath Hsame.
  rewrite files_generated, next_entropy_record in Hsame.
  rewrite <- Hpath in Hsame.
  rewrite (fromStorage_reads _ _ _ _ Hsame);
    [| rewrite length_app, length_next_entropy; lia | done].
  cbn [fst]. rewrite Hpath.
  by rewrite take_app_length' by by rewrite length_next_entropy.
Qed.

(** ** Further properties of the key manager *)

(** *** Random bytes and tokens *)

Lemma next_entropy_split (n m : nat) (w : World) :
  next_entropy (n + m) w
  = next_entropy n w ++ next_entropy m (record (EvRandom n) (take_entropy n (take_stale n w))).
Proof.
  unfold next_entropy, record, take_entropy, take_stale. cbn [entropy entropy_pos].
  by rewrite seq_app, map_app.
Qed.

(** X1. [randomBytes(n)] returns [n] bytes, all of them entropy: nothing of
    the memory that [Buffer.allocUnsafe] handed out is left in the result.
    Two calls in a row read the entropy source one after the other: their
    results, put together, are its next [n + m] bytes.  Storage is not
    touched. *)
Theorem randomBytes_is_all_entropy (n m : nat) (w : World) :
  (randomBytes n w).1 = Return (next_entropy n w)
  ∧ length (next_entropy n w) = n
  ∧ (∃ second, (randomBytes m (randomBytes n w).2).1 = Return second
       ∧ next_entropy n w ++ second = next_entropy (n + m) w)
  ∧ entropy_pos (randomBytes n w).2 = entropy_pos w + n
  ∧ files (randomBytes n w).2 = files w.
Proof.
  rewrite !randomBytes_run. cbn [fst snd].
  split; [done|]. split; [apply length_next_entropy|].
  split; [|done].
  eexists. split; [done|].
  by rewrite next_entropy_split.
Qed.

(** X2. A token made by [createToken] has 32 bytes and passes the length
    check of [deriveSeed]: with a non-empty string as the name the key pair
    is derived. *)
Theorem createToken_is_accepted (this : KeyManager) (s : jsstring) (w w' : World) :
  s ≠ [] →
  ∃ token kp,
    (createToken w).1 = Return token
    ∧ length token = 32
    ∧ token_ok (Some token)
    ∧ (createHypercoreKeyPair this (JString s) (Some token) w').1 = Return kp.
Proof.
  intros Hs. unfold createToken. rewrite randomBytes_run. cbn [fst].
  assert (Htok : token_ok (Some (next_entropy 32 w)))
    by (unfold token_ok; by rewrite length_next_entropy).
  eexists _, _. split; [done|]. split; [apply length_next_entropy|].
  split; [done|]. by rewrite createHypercoreKeyPair_returns.
Qed.

(** *** What key derivation touches *)

(** X3. Key derivation reads no storage and draws no entropy.  Whatever the
    arguments, [createSecret], [createHypercoreKeyPair] and
    [createNetworkIdentity] leave the storage slots and the entropy source
    as they were; a call that fails adds nothing to the trace, and a call
    that returns adds one hash (and, for the key pairs, one key generation
    from the seed of that hash) and nothing else. *)
Theorem derivation_does_no_io (this : KeyManager) (name : jsval)
    (token : option bytes) (w : World) :
  (files (createSecret this name token w).2 = files w
   ∧ entropy_pos (createSecret this name token w).2 = entropy_pos w
   ∧ files (createHypercoreKeyPair this name token w).2 = files w
   ∧ entropy_pos (createHypercoreKeyPair this name token w).2 = entropy_pos w
   ∧ files (createNetworkIdentity this name token w).2 = files w
   ∧ entropy_pos (createNetworkIdentity this name token w).2 = entropy_pos w)
  ∧ ((∃ e, (createSecret this name token w).1 = Throw e
        ∧ (createHypercoreKeyPair this name token w).1 = Throw e
        ∧ (createNetworkIdentity this name token w).1 = Throw e
        ∧ trace (createSecret this name token w).2 = trace w
        ∧ trace (createHypercoreKeyPair this name token w).2 = trace w
        ∧ trace (createNetworkIdentity this name token w).2 = trace w)
     ∨ (∃ s seed,
        name = JString s
        ∧ (createSecret this name token w).1 = Return seed
        ∧ trace (createSecret this name token w).2
          = trace w ++ [EvHash 32 (profile this) (seed_message token s)]
        ∧ trace (createHypercoreKeyPair this name token w).2
          = trace w ++ [EvHash 32 (profile this) (seed_message token s); EvKeygen seed]
        ∧ trace (createNetworkIdentity this name token w).2
          = trace w ++ [EvHash 32 (profile this) (seed_message token s); EvKeygen seed])).
Proof.
  destruct (deriveSeed_cases (profile this) token name None w)
    as [(t & -> & Hlt & _)|[(Htok & Hrej & _)|(s & Htok & -> & Hs & _)]].
  - rewrite createSecret_eq, deriveSeed_short_token by done.
    rewrite (createHypercoreKeyPair_throws _ _ _ _ token_error)
      by by apply deriveSeed_short_token.
    rewrite (createNetworkIdentity_throws _ _ _ _ token_error)
      by by apply deriveSeed_short_token.
    split; [done|]. left. by exists token_error.
  - rewrite createSecret_eq, deriveSeed_rejected_name by done.
    rewrite (createHypercoreKeyPair_throws _ _ _ _ name_error)
      by by apply deriveSeed_rejected_name.
    rewrite (createNetworkIdentity_throws _ _ _ _ name_error)
      by by apply deriveSeed_rejected_name.
    split; [done|]. left. by exists name_error.
  - rewrite createSecret_eq, deriveSeed_accepted_default by done.
    rewrite createHypercoreKeyPair_returns, createNetworkIdentity_returns by done.
    split; [done|]. right. exists s, (seed_of (profile this) token s None).
    split; [done|]. split; [done|]. split; [done|].
    unfold record, take_stale. cbn [snd trace]. by rewrite <- !app_assoc.
Qed.

(** X4. Every key pair that [createHypercoreKeyPair], [createNetworkIdentity]
    or the standalone derivation returns has a public key of 32 bytes and a
    secret key of 64 bytes: the sizes of the buffers the code allocates. *)
Theorem key_pairs_have_the_sodium_sizes (this : KeyManager) (name : jsval)
    (token : option bytes) (prefix namespace : bytes) (leaf : jsstring)
    (w : World) (kp : KeyPair) :
  (createHypercoreKeyPair this name token w).1 = Return kp
  ∨ (createNetworkIdentity this name token w).1 = Return kp
  ∨ (createKeyPair prefix namespace leaf (profile this) w).1 = Return kp →
  length (publicKey kp) = crypto_sign_PUBLICKEYBYTES
  ∧ length (secretKey kp) = crypto_sign_SECRETKEYBYTES.
Proof.
  assert (Hsizes : ∀ pk seed, length pk = 32 →
            length (publicKey (keypair_in pk seed)) = 32
            ∧ length (secretKey (keypair_in pk seed)) = 64).
  { intros pk seed Hpk. unfold keypair_in. cbn [publicKey secretKey].
    by rewrite !length_fill_buffer, length_alloc. }
  intros [Hrun|[Hrun|Hrun]].
  - destruct (deriveSeed_cases (profile this) token name None w)
      as [(t & -> & Hlt & _)|[(Htok & Hrej & _)|(s & Htok & -> & Hs & _)]].
    + rewrite (createHypercoreKeyPair_throws _ _ _ _ token_error) in Hrun
        by by apply deriveSeed_short_token.
      discriminate Hrun.
    + rewrite (createHypercoreKeyPair_throws _ _ _ _ name_error) in Hrun
        by by apply deriveSeed_rejected_name.
      discriminate Hrun.
    + rewrite createHypercoreKeyPair_returns in Hrun by done.
      injection Hrun as <-. apply Hsizes, length_next_stale.
  - destruct (deriveSeed_cases (profile this) token name None w)
      as [(t & -> & Hlt & _)|[(Htok & Hrej & _)|(s & Htok & -> & Hs & _)]].
    + rewrite (createNetworkIdentity_throws _ _ _ _ token_error) in Hrun
        by by apply deriveSeed_short_token.
      discriminate Hrun.
    + rewrite (createNetworkIdentity_throws _ _ _ _ name_error) in Hrun
        by by apply deriveSeed_rejected_name.
      discriminate Hrun.
    + rewrite createNetworkIdentity_returns in Hrun by done.
      injection Hrun as <-. apply Hsizes, length_alloc.
  - rewrite createKeyPair_returns in Hrun. injection Hrun as <-.
    apply Hsizes, length_next_stale.
Qed.

(** *** Signing *)

Lemma _sign_run (sk msg : bytes) (w : World) :
  _sign (Some sk) msg w = (Return (ed25519_sign msg sk), take_stale 64 w).
Proof.
  unfold _sign, crypto_sign_BYTES. unfold bind at 1, allocUnsafe.
  unfold crypto_sign_detached, ret.
  rewrite fill_buffer_whole; [done|].
  by rewrite ed25519_signature_length, length_next_stale.
Qed.

(** X5. The [sign] closure of a key pair that [createHypercoreKeyPair]
    derived never fails: it returns the 64-byte detached signature of the
    message under the Ed25519 secret key of the seed that
    [createSecret(name, token)] gives, with nothing of the uninitialised
    signature buffer left in it, and touches neither storage nor trace.
    [_sign] on an object without a [_secretKey] throws before it allocates
    anything. *)
Theorem sign_of_a_derived_key_pair (this : KeyManager) (s : jsstring)
    (token : option bytes) (msg : bytes) (w w' : World) :
  token_ok token → s ≠ [] →
  (∃ kp,
     (createHypercoreKeyPair this (JString s) token w).1 = Return kp
     ∧ (sign kp msg w').1
       = Return (ed25519_sign msg (ed25519_keypair (seed_of (profile this) token s None)).2)
     ∧ length (ed25519_sign msg (ed25519_keypair (seed_of (profile this) token s None)).2)
       = crypto_sign_BYTES
     ∧ files (sign kp msg w').2 = files w'
     ∧ trace (sign kp msg w').2 = trace w')
  ∧ _sign None msg w' = (Throw (Error "Invalid key pair"), w').
Proof.
  intros Htok Hs. split; [|done].
  rewrite createHypercoreKeyPair_returns by done. eexists. split; [done|].
  unfold sign. rewrite _sign_run. unfold keypair_in. cbn [fst snd secretKey].
  rewrite fill_buffer_whole by by rewrite ed25519_secret_length, length_alloc.
  split; [done|]. split; [apply ed25519_signature_length|done].
Qed.

(** *** Opening the profile *)

Lemma generate_profile_fails (path : string) (w : World) (code : string) :
  files w !! path = Some (Faulty code)
  ∨ (∃ content, files w !! path = Some (Failing content code)) →
  generate_profile path w
  = (Throw (StorageError code),
     record (EvWrite path 0 (next_entropy 32 w))
       (record (EvRandom 32) (take_entropy 32 (take_stale 32 w)))).
Proof.
  intros Hslot. unfold generate_profile. unfold bind at 1.
  rewrite randomBytes_run. unfold bind at 1, write. unfold bind at 1, log.
  rewrite files_record, files_record, files_take_entropy, files_take_stale.
  by destruct Hslot as [->|[content ->]].
Qed.

Lemma fromStorage_write_fails factory opts w :
  files w !! factory (slot_name opts) = Some (Faulty "ENOENT") →
  fromStorage factory opts w
  = (Throw (StorageError "ENOENT"),
     record (EvWrite (factory (slot_name opts)) 0 (next_entropy 32 w))
       (record (EvRandom 32)
          (take_entropy 32
             (take_stale 32 (record (EvStat (factory (slot_name opts))) w))))).
Proof.
  intros Hslot. unfold fromStorage. unfold bind at 1. unfold bind at 1.
  unfold stat. unfold bind at 1, log.
  rewrite !files_record. rewrite Hslot. cbn [fst snd code_of].
  rewrite bool_decide_eq_true_2 by done. cbn [negb].
  by rewrite (generate_profile_fails _ _ "ENOENT") by (left; by rewrite files_record).
Qed.

Lemma fromStorage_write_rejected factory opts w content code :
  files w !! factory (slot_name opts) = Some (Failing content code) →
  content = None
  ∨ (∃ c, content = Some c ∧ (length c < 32 ∨ overwrite opts = true)) →
  fromStorage factory opts w
  = (Throw (StorageError code),
     record (EvWrite (factory (slot_name opts)) 0 (next_entropy 32 w))
       (record (EvRandom 32)
          (take_entropy 32
             (take_stale 32 (record (EvStat (factory (slot_name opts))) w))))).
Proof.
  intros Hslot Hcond. unfold fromStorage. unfold bind at 1. unfold bind at 1.
  unfold stat. unfold bind at 1, log.
  rewrite !files_record. rewrite Hslot.
  assert (Hgen : generate_profile (factory (slot_name opts))
                   (record (EvStat (factory (slot_name opts))) w)
                 = (Throw (StorageError code),
                    record (EvWrite (factory (slot_name opts)) 0 (next_entropy 32 w))
                      (record (EvRandom 32)
                         (take_entropy 32
                            (take_stale 32
                               (record (EvStat (factory (slot_name opts))) w))))))
    by (rewrite (generate_profile_fails _ _ code);
        [reflexivity|right; exists content; by rewrite files_record]).
  destruct Hcond as [->|(c & -> & Hc)]; cbn [fst snd code_of].
  - rewrite bool_decide_eq_true_2 by done. cbn [negb]. by rewrite Hgen.
  - replace ((length c <? 32) || overwrite opts) with true; [by rewrite Hgen|].
    symmetry. destruct Hc as [Hlt| ->]; [|apply orb_true_r].
    by rewrite (proj2 (Nat.ltb_lt _ _) Hlt).
Qed.

Lemma fromStorage_read_fails factory opts w content code :
  files w !! factory (slot_name opts) = Some (Failing (Some content) code) →
  32 ≤ length content → overwrite opts = false →
  fromStorage factory opts w
  = (Throw (StorageError code),
     record (EvRead (factory (slot_name opts)) 0 32)
       (record (EvStat (factory (slot_name opts))) w)).
Proof.
  intros Hslot Hlen Hopt. unfold fromStorage. unfold bind at 1. unfold bind at 1.
  unfold stat. unfold bind at 1, log.
  rewrite !files_record, Hslot. cbn [fst snd]. rewrite Hopt.
  rewrite (proj2 (Nat.ltb_ge _ _) Hlen). cbn [orb].
  unfold bind at 1, read. unfold bind at 1, log.
  by rewrite !files_record, Hslot.
Qed.

(** Which of the two a slot whose reads and writes fail runs into. *)
Lemma failing_slot_cases (opts : Opts) (content : option bytes) :
  (content = None ∨ (∃ c, content = Some c ∧ (length c < 32 ∨ overwrite opts = true)))
  ∨ (∃ c, content = Some c ∧ 32 ≤ length c ∧ overwrite opts = false).
Proof.
  destruct content as [c|]; [|by left; left].
  destruct (decide (length c < 32)); [left; right; eauto|].
  destruct (overwrite opts) eqn:Hopt; [left; right; eauto|].
  right. exists c. split; [done|]. split; [lia|done].
Qed.

Lemma fromStorage_failing factory opts w content code :
  files w !! factory (slot_name opts) = Some (Failing content code) →
  (fromStorage factory opts w).1 = Throw (StorageError code)
  ∧ files (fromStorage factory opts w).2 = files w.
Proof.
  intros Hslot.
  destruct (failing_slot_cases opts content) as [Hwrite|(c & -> & Hlen & Hopt)].
  - by rewrite (fromStorage_write_rejected _ _ _ content code).
  - by rewrite (fromStorage_read_fails _ _ _ c code).
Qed.

(** What an open of a slot that is in order returns and leaves behind. *)
Lemma fromStorage_outcome factory opts w content :
  holds w (factory (slot_name opts)) content →
  ∃ prof after,
    (fromStorage factory opts w).1
      = Return (mkKeyManager (factory (slot_name opts)) prof)
    ∧ length prof = 32
    ∧ files (fromStorage factory opts w).2 !! factory (slot_name opts)
      = Some (Data after)
    ∧ take 32 after = prof
    ∧ 32 ≤ length after.
Proof.
  intros Hslot.
  destruct (decide (length content < 32 ∨ overwrite opts = true)) as [Hgen|Hread].
  - rewrite (fromStorage_generates _ _ _ content) by done. cbn [fst snd].
    eexists _, _. split; [done|]. split; [apply length_next_entropy|].
    split; [apply files_generated|]. rewrite next_entropy_record.
    split; [by rewrite take_app_length' by by rewrite length_next_entropy|].
    rewrite length_app, length_next_entropy. lia.
  - assert (Hlen : 32 ≤ length content) by lia.
    assert (Hopt : overwrite opts = false)
      by (destruct (overwrite opts); [destruct Hread; by right|done]).
    destruct Hslot as [Hdata|[_ ->]]; [|simpl in Hlen; lia].
    rewrite (fromStorage_reads _ _ _ content) by done. cbn [fst snd].
    rewrite !files_record.
    exists (take 32 content), content.
    split; [done|]. split; [by apply length_take_le|]. done.
Qed.

(** X7. An error of the storage driver is passed on, whichever call it
    comes from.  On a slot whose driver fails every call, or answers [stat]
    and fails [read] and [write], [fromStorage] fails with the driver's
    error, returns no manager and leaves the storage as it is.  When [stat]
    itself fails with a code other than ENOENT nothing else is attempted;
    when the [read] of a slot of 32 bytes or more fails, no entropy has
    been drawn; when the [write] of a generated profile fails, the trace
    shows the [stat], the random bytes and the [write]. *)
Theorem fromStorage_passes_driver_errors_on (factory : string → string)
    (opts : Opts) (w : World) (code : string) :
  files w !! factory (slot_name opts) = Some (Faulty code)
  ∨ (∃ content, files w !! factory (slot_name opts) = Some (Failing content code)) →
  (fromStorage factory opts w).1 = Throw (StorageError code)
  ∧ files (fromStorage factory opts w).2 = files w
  ∧ (files w !! factory (slot_name opts) = Some (Faulty code) → code ≠ "ENOENT" →
     entropy_pos (fromStorage factory opts w).2 = entropy_pos w
     ∧ trace (fromStorage factory opts w).2
       = trace w ++ [EvStat (factory (slot_name opts))])
  ∧ (∀ content,
       files w !! factory (slot_name opts) = Some (Failing (Some content) code) →
       32 ≤ length content → overwrite opts = false →
       entropy_pos (fromStorage factory opts w).2 = entropy_pos w
       ∧ trace (fromStorage factory opts w).2
         = trace w ++ [EvStat (factory (slot_name opts));
                       EvRead (factory (slot_name opts)) 0 32])
  ∧ (∀ content,
       files w !! factory (slot_name opts) = Some (Failing content code) →
       content = None
       ∨ (∃ c, content = Some c ∧ (length c < 32 ∨ overwrite opts = true)) →
       trace (fromStorage factory opts w).2
       = trace w ++ [EvStat (factory (slot_name opts)); EvRandom 32;
                     EvWrite (factory (slot_name opts)) 0 (next_entropy 32 w)]).
Proof.
  intros Hslot.
  assert (Hthrows : (fromStorage factory opts w).1 = Throw (StorageError code)
                    ∧ files (fromStorage factory opts w).2 = files w).
  { destruct Hslot as [Hfaulty|[content Hfailing]];
      [|by apply (fromStorage_failing _ _ _ content)].
    destruct (decide (code = "ENOENT")) as [->|Hcode].
    - by rewrite fromStorage_write_fails.
    - by rewrite (fromStorage_rejects _ _ _ code). }
  destruct Hthrows as [Hrun Hfiles].
  split; [done|]. split; [done|]. split; [|split].
  - intros Hfaulty Hcode. by rewrite (fromStorage_rejects _ _ _ code).
  - intros content Hfailing Hlen Hopt.
    rewrite (fromStorage_read_fails _ _ _ content code) by done.
    split; [done|]. unfold record. cbn [snd trace]. by rewrite <- app_assoc.
  - intros content Hfailing Hcond.
    rewrite (fromStorage_write_rejected _ _ _ content code) by done.
    unfold record, take_entropy, take_stale. cbn [snd trace].
    by rewrite <- !app_assoc.
Qed.

(** X8. Whenever [fromStorage] returns a manager, the manager is on the
    slot named [opts.name || 'default'], its profile has 32 bytes, and the
    slot afterwards holds at least 32 bytes of which the first 32 are that
    profile: the profile in memory is the profile on disk, whether it was
    read or generated and whatever the options. *)
Theorem fromStorage_profile_is_on_disk (factory : string → string) (opts : Opts)
    (w : World) (this : KeyManager) :
  (fromStorage factory opts w).1 = Return this →
  storage this = factory (slot_name opts)
  ∧ length (profile this) = 32
  ∧ ∃ after,
      files (fromStorage factory opts w).2 !! factory (slot_name opts)
        = Some (Data after)
      ∧ 32 ≤ length after
      ∧ take 32 after = profile this.
Proof.
  intros Hrun.
  destruct (files w !! factory (slot_name opts))
    as [[content|code|content code]|] eqn:Hslot.
  - destruct (fromStorage_outcome factory opts w content (or_introl Hslot))
      as (prof & after & Hret & Hlen & Hfiles & Htake & Hafter).
    rewrite Hret in Hrun. injection Hrun as <-. cbn [storage profile]. eauto 10.
  - destruct (decide (code = "ENOENT")) as [->|Hcode].
    + rewrite fromStorage_write_fails in Hrun by done. discriminate Hrun.
    + rewrite (fromStorage_rejects _ _ _ code) in Hrun by done. discriminate Hrun.
  - destruct (fromStorage_failing factory opts w content code Hslot) as [Hthrow _].
    rewrite Hthrow in Hrun. discriminate Hrun.
  - destruct (fromStorage_outcome factory opts w [] (or_intror (conj Hslot eq_refl)))
      as (prof & after & Hret & Hlen & Hfiles & Htake & Hafter).
    rewrite Hret in Hrun. injection Hrun as <-. cbn [storage profile]. eauto 10.
Qed.

(** X9. Identity survives a reopen.  After an open of a slot that is in
    order, with whatever options, every later open of a slot with that
    content without [overwrite] returns a manager with the same profile,
    and the two managers derive the same key pair for every accepted name
    and token, from whatever state. *)
Theorem reopened_manager_derives_the_same_keys (factory : string → string)
    (opts opts' : Opts) (w w2 wA wB : World) (content : bytes) (s : jsstring)
    (token : option bytes) :
  holds w (factory (slot_name opts)) content →
  overwrite opts' = false →
  factory (slot_name opts') = factory (slot_name opts) →
  files w2 !! factory (slot_name opts)
    = files (fromStorage factory opts w).2 !! factory (slot_name opts) →
  token_ok token → s ≠ [] →
  ∃ this this' kp,
    (fromStorage factory opts w).1 = Return this
    ∧ (fromStorage factory opts' w2).1 = Return this'
    ∧ profile this' = profile this
    ∧ (createHypercoreKeyPair this (JString s) token wA).1 = Return kp
    ∧ (createHypercoreKeyPair this' (JString s) token wB).1 = Return kp.
Proof.
  intros Hslot Hopt Hpath Hsame Htok Hs.
  destruct (fromStorage_outcome factory opts w content Hslot)
    as (prof & after & Hret & Hlen & Hfiles & Htake & Hafter).
  rewrite Hfiles, <- Hpath in Hsame.
  eexists _, _, _. split; [exact Hret|].
  rewrite (fromStorage_reads _ _ _ after) by done. cbn [fst].
  split; [done|]. cbn [profile]. split; [done|].
  rewrite !createHypercoreKeyPair_returns by done. cbn [fst profile].
  rewrite Htake.
  rewrite !(keypair_in_any_buffer (next_stale 32 _)) by apply length_next_stale.
  done.
Qed.

(** *** How names and tokens reach the hash *)

Lemma byte_of_N_inj (a b : N) :
  (a < 256)%N → (b < 256)%N → byte_of_N a = byte_of_N b → a = b.
Proof.
  intros Ha Hb Heq. unfold byte_of_N in Heq.
  apply (f_equal ascii_of_byte) in Heq. rewrite !ascii_of_byte_of_ascii in Heq.
  apply (f_equal N_of_ascii) in Heq. by rewrite !N_ascii_embedding in Heq.
Qed.

Lemma Buffer_from_ascii_inj (s1 s2 : jsstring) :
  latin1 s1 → latin1 s2 → Buffer_from_ascii s1 = Buffer_from_ascii s2 → s1 = s2.
Proof.
  unfold latin1, Buffer_from_ascii. revert s2.
  induction s1 as [|a s1 IH]; intros [|b s2] H1 H2 Heq; try done.
  apply Forall_cons in H1 as [Ha H1]. apply Forall_cons in H2 as [Hb H2].
  cbn [map] in Heq. injection Heq as Hab Heq.
  f_equal; [by apply byte_of_N_inj|by apply IH].
Qed.

Lemma Buffer_from_ascii_app (s1 s2 : jsstring) :
  Buffer_from_ascii (s1 ++ s2) = Buffer_from_ascii s1 ++ Buffer_from_ascii s2.
Proof. apply map_app. Qed.

Lemma digits_of_uint (d : Decimal.uint) :
  Forall is_digit (js (NilEmpty.string_of_uint d)).
Proof.
  induction d; cbn [NilEmpty.string_of_uint]; [apply Forall_nil_2|..];
    (apply Forall_cons; split; [by vm_compute|exact IHd]).
Qed.

Lemma decimal_digits (n : nat) : Forall is_digit (decimal n).
Proof.
  unfold decimal, NilZero.string_of_uint.
  destruct (Nat.to_uint n) eqn:Hd; try (rewrite <- Hd; apply digits_of_uint).
  apply Forall_cons. split; [by vm_compute|apply Forall_nil_2].
Qed.

Lemma digit_is_no_newline (l : jsstring) : Forall is_digit l → 10%N ∉ l.
Proof.
  intros Hl Hin. rewrite Forall_forall in Hl. destruct (Hl _ Hin). lia.
Qed.

Lemma digits_are_latin1 (l : jsstring) : Forall is_digit l → latin1 l.
Proof.
  unfold latin1. intros Hl. eapply Forall_impl; [exact Hl|].
  intros c [_ Hc]. lia.
Qed.

Lemma decimal_nonempty (n : nat) : decimal n ≠ [].
Proof.
  unfold decimal, NilZero.string_of_uint.
  assert (Hne : ∀ d, d ≠ Decimal.Nil → js (NilEmpty.string_of_uint d) ≠ [])
    by (by intros [| | | | | | | | | |]).
  destruct (Nat.to_uint n) eqn:Hd; try (rewrite <- Hd; apply Hne; by rewrite Hd).
  discriminate.
Qed.

Lemma app_cons_split {A} (x : A) (l1 r1 l2 r2 : list A) :
  x ∉ l1 → x ∉ l2 → l1 ++ x :: r1 = l2 ++ x :: r2 → l1 = l2 ∧ r1 = r2.
Proof.
  revert l2. induction l1 as [|a l1 IH]; intros [|b l2] H1 H2 Heq.
  - by injection Heq.
  - injection Heq as -> _. destruct H2. left.
  - injection Heq as -> _. destruct H1. left.
  - injection Heq as -> Heq.
    apply not_elem_of_cons in H1 as [_ H1]. apply not_elem_of_cons in H2 as [_ H2].
    destruct (IH l2 H1 H2 Heq) as [-> ->]. done.
Qed.

Lemma length_prefixed_inj (s1 s2 : jsstring) :
  length_prefixed s1 = length_prefixed s2 → s1 = s2.
Proof.
  unfold length_prefixed, js_newline. cbn [app]. intros Heq.
  by apply app_cons_split in Heq as [_ ->];
    [|apply digit_is_no_newline, decimal_digits..].
Qed.

Lemma length_prefixed_latin1 (s : jsstring) : latin1 s → latin1 (length_prefixed s).
Proof.
  intros Hs. unfold length_prefixed, latin1.
  apply Forall_app. split; [apply digits_are_latin1, decimal_digits|].
  apply Forall_app. split; [|done].
  apply Forall_cons. split; [lia|apply Forall_nil_2].
Qed.

Lemma seed_message_eq (token : option bytes) (s : jsstring) :
  seed_message token s
  = NAMESPACE ++ default DEFAULT_TOKEN token ++ Buffer_from_ascii (length_prefixed s).
Proof.
  unfold seed_message, seed_batch, length_prefixed. cbn [concat].
  by rewrite app_nil_r.
Qed.

Lemma seed_message_name_injective (token : option bytes) (s1 s2 : jsstring) :
  latin1 s1 → latin1 s2 →
  seed_message token s1 = seed_message token s2 → s1 = s2.
Proof.
  intros H1 H2. rewrite !seed_message_eq. intros Heq.
  apply app_inv_head in Heq. apply app_inv_head in Heq.
  apply length_prefixed_inj, Buffer_from_ascii_inj;
    [by apply length_prefixed_latin1..|done].
Qed.

Lemma seed_of_message profile token s output :
  seed_of profile token s output
  = fill_buffer (default (alloc 32) output)
      (blake2b (length (default (alloc 32) output)) profile (seed_message token s)).
Proof. unfold seed_of, seed_message. reflexivity. Qed.

(** The outcome of a derivation is a function of the hash input. *)
Lemma createHypercoreKeyPair_by_message this (s1 s2 : jsstring)
    (token1 token2 : option bytes) (w : World) :
  token_ok token1 → token_ok token2 → s1 ≠ [] → s2 ≠ [] →
  seed_message token1 s1 = seed_message token2 s2 →
  createHypercoreKeyPair this (JString s1) token1 w
  = createHypercoreKeyPair this (JString s2) token2 w.
Proof.
  intros Ht1 Ht2 Hs1 Hs2 Hmsg.
  rewrite !createHypercoreKeyPair_returns by done.
  rewrite !seed_of_message. by rewrite Hmsg.
Qed.

(** X10. Two different names whose code units are all below 256 give
    different hash inputs, whatever the token: the length prefix and the
    line feed make the encoding of the name unambiguous.  Their public keys
    then differ whenever the hash does not collide on the two inputs and
    the signature scheme does not give the two seeds the same public
    key. *)
Theorem distinct_names_give_distinct_keys (this : KeyManager)
    (token : option bytes) (s1 s2 : jsstring) (w1 w2 : World) :
  latin1 s1 → latin1 s2 → s1 ≠ s2 →
  seed_message token s1 ≠ seed_message token s2
  ∧ (token_ok token → s1 ≠ [] → s2 ≠ [] →
     collision_free (profile this) (seed_message token s1) (seed_message token s2) →
     distinct_public_keys (blake2b 32 (profile this) (seed_message token s1))
                          (blake2b 32 (profile this) (seed_message token s2)) →
     ∃ kp1 kp2,
       (createHypercoreKeyPair this (JString s1) token w1).1 = Return kp1
       ∧ (createHypercoreKeyPair this (JString s2) token w2).1 = Return kp2
       ∧ publicKey kp1 ≠ publicKey kp2).
Proof.
  intros H1 H2 Hne.
  assert (Hmsg : seed_message token s1 ≠ seed_message token s2)
    by (intros Heq; by apply Hne, (seed_message_name_injective token)).
  split; [done|]. intros Htok Hs1 Hs2 Hhash Hkeys.
  rewrite !createHypercoreKeyPair_returns by done.
  eexists _, _. split; [done|]. split; [done|].
  rewrite !publicKey_keypair_in by apply length_next_stale.
  rewrite !seed_of_default. intros Heq. by apply Hmsg, Hhash, Hkeys.
Qed.

(** X11. Of every code unit of a name only the low eight bits reach the
    hash: two names with the same ['ascii'] encoding have the same hash
    input, and [createSecret] and [createHypercoreKeyPair] cannot tell them
    apart, whatever the token and the primitives. *)
Theorem names_are_hashed_by_their_low_bytes (this : KeyManager)
    (token : option bytes) (s1 s2 : jsstring) (w : World) :
  Buffer_from_ascii s1 = Buffer_from_ascii s2 →
  seed_message token s1 = seed_message token s2
  ∧ createSecret this (JString s1) token w = createSecret this (JString s2) token w
  ∧ createHypercoreKeyPair this (JString s1) token w
    = createHypercoreKeyPair this (JString s2) token w.
Proof.
  intros Henc.
  assert (Hlen : length s1 = length s2).
  { apply (f_equal length) in Henc. unfold Buffer_from_ascii in Henc.
    by rewrite !length_map in Henc. }
  assert (Hbatch : seed_batch token s1 = seed_batch token s2).
  { unfold seed_batch, Buffer_byteLength_ascii.
    by rewrite !Buffer_from_ascii_app, Henc, Hlen. }
  assert (Hmsg : seed_message token s1 = seed_message token s2)
    by (unfold seed_message; by rewrite Hbatch).
  split; [done|].
  destruct s1 as [|c1 s1], s2 as [|c2 s2]; try done.
  assert (Hsecret : ∀ w', deriveSeed (profile this) token (JString (c1 :: s1)) None w'
                          = deriveSeed (profile this) token (JString (c2 :: s2)) None w').
  { intros w'.
    destruct (deriveSeed_cases (profile this) token (JString (c1 :: s1)) None w')
      as [(t & -> & Hlt & ->)|[(_ & [?|Hty] & _)|(s & Htok & [= <-] & _ & ->)]];
      [by rewrite deriveSeed_short_token|done|by destruct Hty|].
    rewrite (deriveSeed_accepted _ _ (c2 :: s2)) by done.
    unfold seed_of. by rewrite Hbatch. }
  split; [by rewrite !createSecret_eq|].
  unfold createHypercoreKeyPair. unfold bind at 1 3, allocUnsafe.
  unfold bind at 1 3. by rewrite !createSecret_eq, Hsecret.
Qed.

(** X12. The token and the length-prefixed name are hashed back to back,
    and the token has no frame of its own.  So a token of at least 32
    bytes with a name that ends in the length-prefixed form of a shorter
    name, and that token extended by the start of what [deriveSeed] writes
    for the longer name, with the shorter name, are two different pairs of
    a valid token and a name that give the same hash input and therefore
    the same key pair, whatever the primitives. *)
Theorem token_and_name_are_hashed_back_to_back (this : KeyManager)
    (t : bytes) (p s : jsstring) (w : World) :
  32 ≤ length t → s ≠ [] →
  p ++ length_prefixed s ≠ s
  ∧ token_ok (Some (t ++ Buffer_from_ascii
                          (decimal (length (p ++ length_prefixed s)) ++ js_newline ++ p)))
  ∧ seed_message (Some t) (p ++ length_prefixed s)
    = seed_message
        (Some (t ++ Buffer_from_ascii
                      (decimal (length (p ++ length_prefixed s)) ++ js_newline ++ p))) s
  ∧ createHypercoreKeyPair this (JString (p ++ length_prefixed s)) (Some t) w
    = createHypercoreKeyPair this (JString s)
        (Some (t ++ Buffer_from_ascii
                      (decimal (length (p ++ length_prefixed s)) ++ js_newline ++ p))) w
  ∧ ∃ kp, (createHypercoreKeyPair this (JString (p ++ length_prefixed s)) (Some t) w).1
          = Return kp.
Proof.
  intros Ht Hs.
  assert (Hlonger : length s < length (p ++ length_prefixed s)).
  { unfold length_prefixed, js_newline. rewrite !length_app. cbn [length]. lia. }
  assert (Hne : p ++ length_prefixed s ≠ s) by (intros Heq; rewrite Heq in Hlonger; lia).
  assert (Hne' : p ++ length_prefixed s ≠ []) by (intros Heq; rewrite Heq in Hlonger; simpl in Hlonger; lia).
  assert (Htok : token_ok (Some (t ++ Buffer_from_ascii
            (decimal (length (p ++ length_prefixed s)) ++ js_newline ++ p))))
    by (unfold token_ok; rewrite length_app; lia).
  assert (Hmsg : seed_message (Some t) (p ++ length_prefixed s)
            = seed_message (Some (t ++ Buffer_from_ascii
                (decimal (length (p ++ length_prefixed s)) ++ js_newline ++ p))) s).
  { rewrite !seed_message_eq. cbn [default from_option id].
    unfold length_prefixed at 1. unfold Buffer_byteLength_ascii at 1.
    rewrite !Buffer_from_ascii_app. by rewrite <- !app_assoc. }
  split; [done|]. split; [done|]. split; [done|].
  split; [by apply createHypercoreKeyPair_by_message|].
  rewrite createHypercoreKeyPair_returns by done. by eexists.
Qed.

(** X13. [fromStorage] touches no slot but its own, the one named
    [opts.name || 'default'] (an empty name counts as none): whatever the
    state of that slot and whatever the options, every other slot is
    afterwards as it was. *)
Theorem fromStorage_touches_only_its_slot (factory : string → string)
    (opts : Opts) (w : World) (other : string) :
  other ≠ factory (slot_name opts) →
  files (fromStorage factory opts w).2 !! other = files w !! other
  ∧ (slot_name opts = "default"
     ↔ name opts = None ∨ name opts = Some "" ∨ name opts = Some "default").
Proof.
  intros Hother. split.
  - assert (Hgen : ∀ content,
      files (generated (factory (slot_name opts)) content
               (record (EvStat (factory (slot_name opts))) w)) !! other
      = files w !! other).
    { intros content. unfold generated, store. cbn [files].
      by rewrite lookup_insert_ne. }
    destruct (files w !! factory (slot_name opts))
      as [[content|code|content code]|] eqn:Hslot.
    + destruct (decide (length content < 32 ∨ overwrite opts = true)) as [Hcond|Hread].
      * rewrite (fromStorage_generates _ _ _ content) by (done || by left).
        apply Hgen.
      * rewrite (fromStorage_reads _ _ _ content); [done|done|lia|].
        destruct (overwrite opts); [destruct Hread; by right|done].
    + destruct (decide (code = "ENOENT")) as [->|Hcode].
      * by rewrite fromStorage_write_fails.
      * by rewrite (fromStorage_rejects _ _ _ code).
    + destruct (fromStorage_failing factory opts w content code Hslot) as [_ Hfiles].
      by rewrite Hfiles.
    + rewrite (fromStorage_generates _ _ _ []);
        [apply Hgen|by right|left; simpl; lia].
  - unfold slot_name. destruct (name opts) as [n|]; [|by split; [left|]].
    case_bool_decide as Hn.
    + subst n. by split; [right; left|].
    + split; [intros ->; by right; right|].
      by intros [|[[= ->]|[= ->]]].
Qed.

End Derivation.

(** ** The core registry *)

Section RegistryInvariant.

Lemma empty_registry_inv : registry_inv empty_registry.
Proof.
  split; simpl; try apply NoDup_nil_2; try done;
    intros ? H; by apply elem_of_nil in H.
Qed.

(** *** Lists *)

Lemma NoDup_fmap_elem_inj {A B} (f : A → B) (l : list A) (x y : A) :
  NoDup (f <$> l) → x ∈ l → y ∈ l → f x = f y → x = y.
Proof.
  induction l as [|a l IH]; intros Hnd Hx Hy Heq.
  - by apply elem_of_nil in Hx.
  - rewrite fmap_cons in Hnd. apply NoDup_cons in Hnd as [Ha Hnd].
    apply elem_of_cons in Hx as [->|Hx]; apply elem_of_cons in Hy as [->|Hy].
    + done.
    + destruct Ha. rewrite Heq. apply list_elem_of_fmap. eauto.
    + destruct Ha. rewrite <- Heq. apply list_elem_of_fmap. eauto.
    + by apply IH.
Qed.

Lemma filter_fmap_agree {A B} (f : A → B) (P : B → Prop) (Q : A → Prop)
    `{∀ y, Decision (P y)} `{∀ x, Decision (Q x)} (l : list A) :
  (∀ x, x ∈ l → P (f x) ↔ Q x) →
  filter P (f <$> l) = f <$> filter Q l.
Proof.
  induction l as [|a l IH]; intros Hagree; [done|].
  rewrite fmap_cons, !filter_cons.
  assert (Ha : P (f a) ↔ Q a) by (apply Hagree; left).
  rewrite IH by (intros x Hx; apply Hagree; by right).
  destruct (decide (P (f a))), (decide (Q a)); tauto || done.
Qed.

Lemma find_has_key_Some pk cs e :
  find (has_key pk) cs = Some e → e ∈ cs ∧ entry_publicKey e = pk.
Proof.
  intros H. apply find_some in H as [Hin Hkey].
  split; [by apply list_elem_of_In|]. by apply bool_decide_eq_true in Hkey.
Qed.

Lemma find_has_key_None pk cs :
  find (has_key pk) cs = None → pk ∉ entry_publicKey <$> cs.
Proof.
  intros H Hin. apply list_elem_of_fmap in Hin as (e & -> & He).
  apply list_elem_of_In in He.
  pose proof (find_none _ _ H e He) as Hkey.
  unfold has_key in Hkey. by rewrite bool_decide_eq_true_2 in Hkey.
Qed.

Lemma find_handle_Some id hs h :
  find (λ h, handle_id h =? id) hs = Some h → h ∈ hs ∧ handle_id h = id.
Proof.
  intros H. apply find_some in H as [Hin Hid].
  split; [by apply list_elem_of_In|]. by apply Nat.eqb_eq.
Qed.

Lemma fmap_fmap_same {A B} (g : A → B) (f : A → A) (l : list A) :
  (∀ x, g (f x) = g x) → g <$> (f <$> l) = g <$> l.
Proof.
  intros Hgf. rewrite <- list_fmap_compose.
  apply list_fmap_ext. intros i x _. apply Hgf.
Qed.

Lemma retain_key pk e : entry_publicKey (retain pk e) = entry_publicKey e.
Proof. unfold retain. by destruct (has_key pk e). Qed.

Lemma retain_instance pk e : logInstance (retain pk e) = logInstance e.
Proof. unfold retain. by destruct (has_key pk e). Qed.

Lemma retain_log pk e : log_of (retain pk e) = log_of e.
Proof. unfold log_of. by rewrite retain_key, retain_instance. Qed.

Lemma drop_ref_key pk e : entry_publicKey (drop_ref pk e) = entry_publicKey e.
Proof. unfold drop_ref. by destruct (has_key pk e). Qed.

Lemma drop_ref_instance pk e : logInstance (drop_ref pk e) = logInstance e.
Proof. unfold drop_ref. by destruct (has_key pk e). Qed.

Lemma drop_ref_log pk e : log_of (drop_ref pk e) = log_of e.
Proof. unfold log_of. by rewrite drop_ref_key, drop_ref_instance. Qed.

Lemma retain_refcount pk e :
  refcount (retain pk e)
  = if decide (entry_publicKey e = pk) then S (refcount e) else refcount e.
Proof.
  unfold retain, has_key. case_decide.
  - by rewrite bool_decide_eq_true_2.
  - by rewrite bool_decide_eq_false_2.
Qed.

Lemma drop_ref_refcount pk e :
  refcount (drop_ref pk e)
  = if decide (entry_publicKey e = pk) then pred (refcount e) else refcount e.
Proof.
  unfold drop_ref, has_key. case_decide.
  - by rewrite bool_decide_eq_true_2.
  - by rewrite bool_decide_eq_false_2.
Qed.

(** Releasing one handle takes exactly that handle out of the handles of
    its key and leaves the handles of every other key alone. *)
Lemma handles_of_release (hs : list handle) (h : handle) (pk : bytes) :
  NoDup (handle_id <$> hs) → h ∈ hs →
  length (handles_of pk (filter (λ h', handle_id h' ≠ handle_id h) hs))
    + (if decide (handle_publicKey h = pk) then 1 else 0)
  = length (handles_of pk hs).
Proof.
  unfold handles_of.
  induction hs as [|a hs IH]; intros Hnd Hin; [by apply elem_of_nil in Hin|].
  rewrite fmap_cons in Hnd. apply NoDup_cons in Hnd as [Ha Hnd].
  apply elem_of_cons in Hin as [->|Hin].
  - rewrite filter_cons_False by (intros Hne; by apply Hne).
    assert (Hrest : filter (λ h', handle_id h' ≠ handle_id a) hs = hs).
    { clear IH Hnd. induction hs as [|b hs IH]; [done|].
      rewrite fmap_cons in Ha. apply not_elem_of_cons in Ha as [Hab Ha].
      rewrite filter_cons_True by congruence. by rewrite IH. }
    rewrite Hrest, (filter_cons (λ h0, handle_publicKey h0 = pk)).
    case_decide; simpl; lia.
  - assert (Hne : handle_id a ≠ handle_id h).
    { intros Heq. apply Ha. rewrite Heq. by apply list_elem_of_fmap_2. }
    rewrite filter_cons_True by done.
    rewrite !(filter_cons (λ h0, handle_publicKey h0 = pk)).
    specialize (IH Hnd Hin).
    destruct (decide (handle_publicKey a = pk)); simpl; lia.
Qed.

Lemma handles_of_absent_key (r : Registry) (pk : bytes) :
  registry_inv r → pk ∉ entry_publicKey <$> cores r →
  handles_of pk (handles r) = [].
Proof.
  intros Hinv Hpk. apply elem_of_nil_inv. intros h Hh.
  apply list_elem_of_filter in Hh as [Hkey Hh].
  apply Hpk. rewrite <- Hkey. by apply (inv_handles r).
Qed.

(** *** [resolve] keeps the invariant *)

Lemma resolve_hit_inv (r : Registry) (pk : bytes) (e : entry) :
  registry_inv r → e ∈ cores r → entry_publicKey e = pk →
  registry_inv (mkRegistry (retain pk <$> cores r) (open_logs r)
                  (mkHandle (next_handle r) pk (logInstance e) :: handles r)
                  (next_log r) (S (next_handle r))).
Proof.
  intros Hinv He Hkey. split; cbn [cores open_logs handles next_log next_handle].
  - rewrite fmap_fmap_same by apply retain_key. apply (inv_keys r Hinv).
  - rewrite fmap_fmap_same by apply retain_log. apply (inv_logs r Hinv).
  - rewrite fmap_fmap_same by apply retain_instance. apply (inv_instances r Hinv).
  - intros e' He'. apply list_elem_of_fmap in He' as (e0 & -> & He0).
    rewrite retain_instance. by apply (inv_fresh_log r).
  - intros e' He'. apply list_elem_of_fmap in He' as (e0 & -> & He0).
    destruct (inv_refcount r Hinv e0 He0) as [Hcount Hpos].
    rewrite retain_key, retain_refcount. unfold handles_of in *.
    rewrite filter_cons. cbn [handle_publicKey].
    destruct (decide (entry_publicKey e0 = pk)) as [Heq|Hne].
    + rewrite decide_True by done. simpl. lia.
    + rewrite decide_False by done. lia.
  - intros h Hh. rewrite fmap_fmap_same by apply retain_key.
    apply elem_of_cons in Hh as [->|Hh]; [|by apply (inv_handles r)].
    cbn [handle_publicKey]. rewrite <- Hkey. by apply list_elem_of_fmap_2.
  - rewrite fmap_cons. apply NoDup_cons. split; [|apply (inv_ids r Hinv)].
    cbn [handle_id]. intros Hin. apply list_elem_of_fmap in Hin as (h & Hid & Hh).
    pose proof (inv_fresh_id r Hinv h Hh). lia.
  - intros h Hh. apply elem_of_cons in Hh as [->|Hh]; cbn [handle_id]; [lia|].
    pose proof (inv_fresh_id r Hinv h Hh). lia.
Qed.

Lemma resolve_miss_inv (r : Registry) (pk : bytes) :
  registry_inv r → pk ∉ entry_publicKey <$> cores r →
  registry_inv (mkRegistry (cores r ++ [mkEntry pk (next_log r) 1])
                  (open_logs r ++ [(next_log r, pk)])
                  (mkHandle (next_handle r) pk (next_log r) :: handles r)
                  (S (next_log r)) (S (next_handle r))).
Proof.
  intros Hinv Hpk. split; cbn [cores open_logs handles next_log next_handle].
  - rewrite fmap_app. apply NoDup_app. split; [apply (inv_keys r Hinv)|].
    split; [|apply NoDup_singleton].
    intros k Hk Hk'. apply list_elem_of_singleton in Hk'. by subst k.
  - rewrite fmap_app. by rewrite (inv_logs r Hinv).
  - rewrite fmap_app. apply NoDup_app. split; [apply (inv_instances r Hinv)|].
    split; [|apply NoDup_singleton].
    intros l Hl Hl'. apply list_elem_of_singleton in Hl'. cbn in Hl'. subst l.
    apply list_elem_of_fmap in Hl as (e & Heq & He).
    pose proof (inv_fresh_log r Hinv e He). lia.
  - intros e He. apply elem_of_app in He as [He|He].
    + pose proof (inv_fresh_log r Hinv e He). lia.
    + apply list_elem_of_singleton in He. subst e. cbn. lia.
  - intros e He. unfold handles_of. rewrite filter_cons. cbn [handle_publicKey].
    apply elem_of_app in He as [He|He].
    + destruct (inv_refcount r Hinv e He) as [Hcount Hpos].
      rewrite decide_False; [done|].
      intros Heq. apply Hpk. rewrite Heq. by apply list_elem_of_fmap_2.
    + apply list_elem_of_singleton in He. subst e. cbn [entry_publicKey refcount].
      rewrite decide_True by done.
      fold (handles_of pk (handles r)).
      rewrite (handles_of_absent_key r pk Hinv Hpk). simpl. lia.
  - intros h Hh. rewrite fmap_app. apply elem_of_app.
    apply elem_of_cons in Hh as [->|Hh]; [right; by left|].
    left. by apply (inv_handles r).
  - rewrite fmap_cons. apply NoDup_cons. split; [|apply (inv_ids r Hinv)].
    cbn [handle_id]. intros Hin. apply list_elem_of_fmap in Hin as (h & Hid & Hh).
    pose proof (inv_fresh_id r Hinv h Hh). lia.
  - intros h Hh. apply elem_of_cons in Hh as [->|Hh]; cbn [handle_id]; [lia|].
    pose proof (inv_fresh_id r Hinv h Hh). lia.
Qed.

Lemma resolve_inv (pk : bytes) (opens : bool) (r : Registry) :
  registry_inv r → registry_inv (resolve pk opens r).2.
Proof.
  intros Hinv. unfold resolve.
  destruct (find (has_key pk) (cores r)) as [e|] eqn:Hfind.
  - apply find_has_key_Some in Hfind as [He Hkey]. by apply resolve_hit_inv.
  - apply find_has_key_None in Hfind.
    destruct opens; [|done]. by apply resolve_miss_inv.
Qed.

(** *** [release] keeps the invariant *)

Lemma NoDup_fmap_filter {A B} (f : A → B) (Q : A → Prop) `{∀ x, Decision (Q x)}
    (l : list A) :
  NoDup (f <$> l) → NoDup (f <$> filter Q l).
Proof.
  induction l as [|a l IH]; [done|].
  rewrite fmap_cons. intros [Ha Hnd]%NoDup_cons.
  rewrite filter_cons. destruct (decide (Q a)); [|by apply IH].
  rewrite fmap_cons. apply NoDup_cons. split; [|by apply IH].
  intros Hin. apply Ha.
  apply list_elem_of_fmap in Hin as (x & -> & Hx).
  apply list_elem_of_filter in Hx as [_ Hx]. by apply list_elem_of_fmap_2.
Qed.

(** The entry of a key is the only one with its log instance. *)
Lemma same_log_same_key (r : Registry) (e x : entry) :
  registry_inv r → e ∈ cores r → x ∈ cores r →
  (log_of x).1 ≠ logInstance e ↔ entry_publicKey x ≠ entry_publicKey e.
Proof.
  intros Hinv He Hx. cbn [log_of fst]. split; intros Hne Heq; apply Hne.
  - by rewrite (NoDup_fmap_elem_inj entry_publicKey (cores r) x e (inv_keys r Hinv)).
  - by rewrite (NoDup_fmap_elem_inj logInstance (cores r) x e (inv_instances r Hinv)).
Qed.

Lemma release_evict_inv (r : Registry) (h : handle) (e : entry) :
  registry_inv r → h ∈ handles r → e ∈ cores r →
  entry_publicKey e = handle_publicKey h → refcount e ≤ 1 →
  registry_inv
    (mkRegistry (filter (λ e', entry_publicKey e' ≠ handle_publicKey h) (cores r))
                (filter (λ l, l.1 ≠ logInstance e) (open_logs r))
                (filter (λ h', handle_id h' ≠ handle_id h) (handles r))
                (next_log r) (next_handle r)).
Proof.
  intros Hinv Hh He Hkey Hcount.
  pose proof (handles_of_release (handles r) h (handle_publicKey h)
                (inv_ids r Hinv) Hh) as Hone.
  rewrite decide_True in Hone by done.
  destruct (inv_refcount r Hinv e He) as [Hrc _]. rewrite Hkey in Hrc.
  split; cbn [cores open_logs handles next_log next_handle].
  - apply NoDup_fmap_filter, (inv_keys r Hinv).
  - rewrite (inv_logs r Hinv). apply filter_fmap_agree.
    intros x Hx. rewrite <- Hkey. by apply (same_log_same_key r).
  - apply NoDup_fmap_filter, (inv_instances r Hinv).
  - intros e' [_ He']%list_elem_of_filter. by apply (inv_fresh_log r).
  - intros e' [Hne He']%list_elem_of_filter.
    destruct (inv_refcount r Hinv e' He') as [Hrc' Hpos]. split; [|done].
    pose proof (handles_of_release (handles r) h (entry_publicKey e')
                  (inv_ids r Hinv) Hh) as Hsame.
    rewrite decide_False in Hsame by congruence. lia.
  - intros h' [Hid Hh']%list_elem_of_filter.
    pose proof (inv_handles r Hinv h' Hh') as Hin.
    apply list_elem_of_fmap in Hin as (e' & Hk & He').
    rewrite Hk. apply list_elem_of_fmap_2, list_elem_of_filter. split; [|done].
    intros Heq.
    assert (Hmem : h' ∈ handles_of (handle_publicKey h)
                     (filter (λ h', handle_id h' ≠ handle_id h) (handles r))).
    { apply list_elem_of_filter. split; [congruence|].
      by apply list_elem_of_filter. }
    destruct (handles_of (handle_publicKey h)
                (filter (λ h', handle_id h' ≠ handle_id h) (handles r)));
      [by apply elem_of_nil in Hmem|simpl in Hone; lia].
  - apply NoDup_fmap_filter, (inv_ids r Hinv).
  - intros h' [_ Hh']%list_elem_of_filter. by apply (inv_fresh_id r).
Qed.

Lemma release_keep_inv (r : Registry) (h : handle) (e : entry) :
  registry_inv r → h ∈ handles r → e ∈ cores r →
  entry_publicKey e = handle_publicKey h → 1 < refcount e →
  registry_inv
    (mkRegistry (drop_ref (handle_publicKey h) <$> cores r) (open_logs r)
                (filter (λ h', handle_id h' ≠ handle_id h) (handles r))
                (next_log r) (next_handle r)).
Proof.
  intros Hinv Hh He Hkey Hcount.
  destruct (inv_refcount r Hinv e He) as [Hrc _]. rewrite Hkey in Hrc.
  split; cbn [cores open_logs handles next_log next_handle].
  - rewrite fmap_fmap_same by apply drop_ref_key. apply (inv_keys r Hinv).
  - rewrite fmap_fmap_same by apply drop_ref_log. apply (inv_logs r Hinv).
  - rewrite fmap_fmap_same by apply drop_ref_instance. apply (inv_instances r Hinv).
  - intros e' He'. apply list_elem_of_fmap in He' as (e0 & -> & He0).
    rewrite drop_ref_instance. by apply (inv_fresh_log r).
  - intros e' He'. apply list_elem_of_fmap in He' as (e0 & -> & He0).
    destruct (inv_refcount r Hinv e0 He0) as [Hrc0 Hpos].
    pose proof (handles_of_release (handles r) h (entry_publicKey e0)
                  (inv_ids r Hinv) Hh) as Hrel.
    rewrite drop_ref_key, drop_ref_refcount.
    destruct (decide (entry_publicKey e0 = handle_publicKey h)) as [Heq|Hne].
    + rewrite decide_True in Hrel by done. rewrite Heq in Hrc0, Hrel. rewrite Heq. lia.
    + rewrite decide_False in Hrel by congruence. lia.
  - intros h' [_ Hh']%list_elem_of_filter.
    rewrite fmap_fmap_same by apply drop_ref_key. by apply (inv_handles r).
  - apply NoDup_fmap_filter, (inv_ids r Hinv).
  - intros h' [_ Hh']%list_elem_of_filter. by apply (inv_fresh_id r).
Qed.

Lemma release_inv (id : nat) (r : Registry) :
  registry_inv r → registry_inv (release id r).
Proof.
  intros Hinv. unfold release.
  destruct (find (λ h, handle_id h =? id) (handles r)) as [h|] eqn:Hfind; [|done].
  apply find_handle_Some in Hfind as [Hh <-].
  destruct (find (has_key (handle_publicKey h)) (cores r)) as [e|] eqn:Hentry.
  - apply find_has_key_Some in Hentry as [He Hkey].
    destruct (Nat.leb_spec (refcount e) 1).
    + by apply (release_evict_inv r h e).
    + by apply (release_keep_inv r h e).
  - apply find_has_key_None in Hentry. destruct Hentry.
    by apply (inv_handles r).
Qed.

Lemma step_inv (r : Registry) (o : op) : registry_inv r → registry_inv (step r o).
Proof. destruct o; [apply resolve_inv|apply release_inv]. Qed.

Lemma fold_step_inv (ops : list op) (r : Registry) :
  registry_inv r → registry_inv (fold_left step ops r).
Proof.
  revert r. induction ops as [|o ops IH]; intros r Hinv; [done|].
  cbn [fold_left]. by apply IH, step_inv.
Qed.

Lemma run_ops_inv (ops : list op) : registry_inv (run_ops ops).
Proof. apply fold_step_inv, empty_registry_inv. Qed.

(** The cached keys are the live keys. *)
Lemma cached_keys_are_live (r : Registry) :
  registry_inv r → entry_publicKey <$> cores r ≡ₚ live_keys r.
Proof.
  intros Hinv. apply NoDup_Permutation.
  - apply (inv_keys r Hinv).
  - apply NoDup_remove_dups.
  - intros pk. unfold live_keys. rewrite elem_of_remove_dups. split.
    + intros (e & -> & He)%list_elem_of_fmap.
      destruct (inv_refcount r Hinv e He) as [Hrc Hpos].
      destruct (handles_of (entry_publicKey e) (handles r)) as [|h hs] eqn:Hhs;
        [simpl in Hrc; lia|].
      assert (Hh : h ∈ handles_of (entry_publicKey e) (handles r))
        by (rewrite Hhs; left).
      apply list_elem_of_filter in Hh as [<- Hh]. by apply list_elem_of_fmap_2.
    + intros (h & -> & Hh)%list_elem_of_fmap. by apply (inv_handles r).
Qed.

Lemma log_keys (cs : list entry) : (log_of <$> cs).*2 = entry_publicKey <$> cs.
Proof. induction cs as [|e cs IH]; [done|]. cbn. by f_equal. Qed.

Lemma resolve_cached_size (r : Registry) (pk : bytes) (opens : bool) :
  pk ∈ entry_publicKey <$> cores r →
  length (cores (resolve pk opens r).2) = length (cores r)
  ∧ length (handles (resolve pk opens r).2) = S (length (handles r)).
Proof.
  intros Hpk. unfold resolve.
  destruct (find (has_key pk) (cores r)) as [e|] eqn:Hfind.
  - cbn [snd cores handles]. by rewrite length_fmap.
  - by apply find_has_key_None in Hfind.
Qed.

(** *** The handles of a history *)

Lemma track_registry (ops : list op) (s : Registry * list handle) :
  (fold_left track ops s).1 = fold_left step ops s.1.
Proof.
  revert s. induction ops as [|o ops IH]; intros s; [done|].
  cbn [fold_left]. rewrite IH. by destruct o.
Qed.

Lemma find_handle_None id hs :
  find (λ h, handle_id h =? id) hs = None →
  filter (λ h, handle_id h ≠ id) hs = hs.
Proof.
  induction hs as [|a hs IH]; [done|]. cbn [find].
  destruct (Nat.eqb_spec (handle_id a) id) as [|Hne]; [done|].
  intros H. rewrite filter_cons_True by done. by rewrite IH.
Qed.

Lemma resolve_handles (pk : bytes) (opens : bool) (r : Registry) :
  handles (resolve pk opens r).2
  = match (resolve pk opens r).1 with
    | Some h => h :: handles r
    | None => handles r
    end.
Proof. unfold resolve. destruct (find _ _); [done|]. by destruct opens. Qed.

Lemma release_handles (id : nat) (r : Registry) :
  handles (release id r) = filter (λ h, handle_id h ≠ id) (handles r).
Proof.
  unfold release.
  destruct (find (λ h, handle_id h =? id) (handles r)) eqn:Hfind.
  - destruct (find _ (cores r)); [destruct (_ <=? _)|]; done.
  - by rewrite find_handle_None.
Qed.

Lemma track_handles (ops : list op) (s : Registry * list handle) :
  s.2 = handles s.1 →
  (fold_left track ops s).2 = handles (fold_left track ops s).1.
Proof.
  revert s. induction ops as [|o ops IH]; intros s Hs; [done|].
  cbn [fold_left]. apply IH. destruct o as [pk opens|id]; cbn [track fst snd].
  - by rewrite resolve_handles, Hs.
  - by rewrite release_handles, Hs.
Qed.

(** The handles that the registry records are those of its history. *)
Lemma outstanding_handles (ops : list op) : outstanding ops = handles (run_ops ops).
Proof.
  unfold outstanding, run_ops. rewrite track_handles by done.
  by rewrite track_registry.
Qed.

Lemma outstanding_resolve (ops : list op) (pk : bytes) (opens : bool) :
  outstanding (ops ++ [Resolve pk opens])
  = match (resolve pk opens (run_ops ops)).1 with
    | Some h => h :: outstanding ops
    | None => outstanding ops
    end.
Proof.
  unfold outstanding, run_ops. rewrite fold_left_app. cbn [fold_left track snd].
  by rewrite track_registry.
Qed.

Lemma outstanding_release (ops : list op) (id : nat) :
  outstanding (ops ++ [Release id])
  = filter (λ h, handle_id h ≠ id) (outstanding ops).
Proof. unfold outstanding. by rewrite fold_left_app. Qed.

Lemma run_ops_snoc (ops : list op) (o : op) :
  run_ops (ops ++ [o]) = step (run_ops ops) o.
Proof. unfold run_ops. by rewrite fold_left_app. Qed.

(** *** Every handle is on the log instance of its key *)

Definition handle_logs_inv (r : Registry) : Prop :=
  ∀ h, h ∈ handles r → (handle_log h, handle_publicKey h) ∈ open_logs r.

Lemma resolve_handle_logs (pk : bytes) (opens : bool) (r : Registry) :
  registry_inv r → handle_logs_inv r → handle_logs_inv (resolve pk opens r).2.
Proof.
  intros Hinv Hlogs. unfold resolve.
  destruct (find (has_key pk) (cores r)) as [e|] eqn:Hfind.
  - apply find_has_key_Some in Hfind as [He Hkey].
    intros h Hh. cbn [snd handles open_logs] in *.
    apply elem_of_cons in Hh as [->|Hh]; [|by apply Hlogs].
    cbn [handle_log handle_publicKey]. rewrite (inv_logs r Hinv), <- Hkey.
    by apply (list_elem_of_fmap_2 log_of).
  - destruct opens; [|done]. intros h Hh. cbn [snd handles open_logs] in *.
    apply elem_of_app. apply elem_of_cons in Hh as [->|Hh].
    + right. cbn [handle_log handle_publicKey]. by left.
    + left. by apply Hlogs.
Qed.

Lemma release_handle_logs (id : nat) (r : Registry) :
  registry_inv r → handle_logs_inv r → handle_logs_inv (release id r).
Proof.
  intros Hinv Hlogs. unfold release.
  destruct (find (λ h, handle_id h =? id) (handles r)) as [h|] eqn:Hfind; [|done].
  apply find_handle_Some in Hfind as [Hh <-].
  destruct (find (has_key (handle_publicKey h)) (cores r)) as [e|] eqn:Hentry.
  - apply find_has_key_Some in Hentry as [He Hkey].
    destruct (Nat.leb_spec (refcount e) 1) as [Hle|Hlt].
    + pose proof (release_evict_inv r h e Hinv Hh He Hkey Hle) as Hinv'.
      intros h' Hh'. pose proof (inv_handles _ Hinv' h' Hh') as Hcached.
      cbn [handles open_logs cores] in *.
      apply list_elem_of_filter in Hh' as [_ Hh'].
      apply list_elem_of_filter. split; [|by apply Hlogs].
      cbn [fst]. intros Hlog.
      pose proof (Hlogs h' Hh') as Hopen. rewrite (inv_logs r Hinv) in Hopen.
      apply list_elem_of_fmap in Hopen as (x & Hx & Hxin).
      unfold log_of in Hx. injection Hx as Hxl Hxk.
      assert (x = e) as ->.
      { apply (NoDup_fmap_elem_inj logInstance (cores r)); [apply (inv_instances r Hinv)|done..|].
        congruence. }
      apply list_elem_of_fmap in Hcached as (y & Hy & Hyin).
      apply list_elem_of_filter in Hyin as [Hne _]. congruence.
    + intros h' Hh'. cbn [handles open_logs] in *.
      apply list_elem_of_filter in Hh' as [_ Hh']. by apply Hlogs.
  - intros h' Hh'. cbn [handles open_logs] in *.
    apply list_elem_of_filter in Hh' as [_ Hh']. by apply Hlogs.
Qed.

Lemma fold_step_handle_logs (ops : list op) (r : Registry) :
  registry_inv r → handle_logs_inv r → handle_logs_inv (fold_left step ops r).
Proof.
  revert r. induction ops as [|o ops IH]; intros r Hinv Hlogs; [done|].
  cbn [fold_left]. apply IH; [by apply step_inv|].
  destruct o; [by apply resolve_handle_logs|by apply release_handle_logs].
Qed.

Lemma run_ops_handle_logs (ops : list op) : handle_logs_inv (run_ops ops).
Proof.
  apply fold_step_handle_logs; [apply empty_registry_inv|].
  intros h Hh. by apply elem_of_nil in Hh.
Qed.

(** The entry behind a handle: that of its key, on its log instance,
    counting the handles of the key. *)
Lemma entry_of_handle (r : Registry) (h : handle) :
  registry_inv r → handle_logs_inv r → h ∈ handles r →
  mkEntry (handle_publicKey h) (handle_log h)
          (length (handles_of (handle_publicKey h) (handles r))) ∈ cores r.
Proof.
  intros Hinv Hlogs Hh. pose proof (Hlogs h Hh) as Hopen.
  rewrite (inv_logs r Hinv) in Hopen.
  apply list_elem_of_fmap in Hopen as (x & Hx & Hxin).
  destruct (inv_refcount r Hinv x Hxin) as [Hrc _].
  destruct x as [k l n]. unfold log_of in Hx. cbn in Hx, Hrc.
  injection Hx as -> ->. by rewrite <- Hrc.
Qed.

Lemma cached_iff_outstanding (r : Registry) (pk : bytes) :
  registry_inv r →
  pk ∈ entry_publicKey <$> cores r ↔ pk ∈ handle_publicKey <$> handles r.
Proof.
  intros Hinv. rewrite (cached_keys_are_live r Hinv). unfold live_keys.
  by rewrite elem_of_remove_dups.
Qed.

Lemma instances_open_once (r : Registry) :
  registry_inv r → NoDup (open_logs r).*1.
Proof.
  intros Hinv. rewrite (inv_logs r Hinv).
  rewrite <- list_fmap_compose. apply (inv_instances r Hinv).
Qed.

(** *** What [resolve] does in a reachable registry *)

Lemma resolve_cached (r : Registry) (pk : bytes) (opens : bool) :
  registry_inv r → pk ∈ entry_publicKey <$> cores r →
  ∃ h, (resolve pk opens r).1 = Some h
       ∧ handle_publicKey h = pk
       ∧ (handle_id h ∉ handle_id <$> handles r)
       ∧ (handle_log h, pk) ∈ open_logs r
       ∧ open_logs (resolve pk opens r).2 = open_logs r
       ∧ entry_publicKey <$> cores (resolve pk opens r).2 = entry_publicKey <$> cores r.
Proof.
  intros Hinv Hpk. unfold resolve.
  destruct (find (has_key pk) (cores r)) as [e|] eqn:Hfind;
    [|by apply find_has_key_None in Hfind].
  apply find_has_key_Some in Hfind as [He Hkey].
  eexists. split; [done|]. cbn [fst snd handle_publicKey handle_id handle_log cores open_logs].
  split; [done|]. split.
  { intros (h & Hid & Hh)%list_elem_of_fmap.
    pose proof (inv_fresh_id r Hinv h Hh). lia. }
  split.
  { rewrite (inv_logs r Hinv), <- Hkey. by apply (list_elem_of_fmap_2 log_of). }
  split; [done|]. by rewrite fmap_fmap_same by apply retain_key.
Qed.

Lemma resolve_opens (r : Registry) (pk : bytes) :
  registry_inv r → pk ∉ entry_publicKey <$> cores r →
  ∃ h, (resolve pk true r).1 = Some h
       ∧ handle_publicKey h = pk
       ∧ (handle_id h ∉ handle_id <$> handles r)
       ∧ (handle_log h ∉ (open_logs r).*1)
       ∧ open_logs (resolve pk true r).2 = open_logs r ++ [(handle_log h, pk)]
       ∧ entry_publicKey <$> cores (resolve pk true r).2
         = (entry_publicKey <$> cores r) ++ [pk].
Proof.
  intros Hinv Hpk. unfold resolve.
  destruct (find (has_key pk) (cores r)) as [e|] eqn:Hfind.
  { apply find_has_key_Some in Hfind as [He <-]. destruct Hpk.
    by apply list_elem_of_fmap_2. }
  eexists. split; [done|]. cbn [fst snd handle_publicKey handle_id handle_log cores open_logs].
  split; [done|]. split.
  { intros (h & Hid & Hh)%list_elem_of_fmap.
    pose proof (inv_fresh_id r Hinv h Hh). lia. }
  split.
  { rewrite (inv_logs r Hinv), <- list_fmap_compose.
    intros (e & Hl & He)%list_elem_of_fmap. cbn in Hl.
    pose proof (inv_fresh_log r Hinv e He). lia. }
  split; [done|]. by rewrite fmap_app.
Qed.

Lemma resolve_fails (r : Registry) (pk : bytes) :
  pk ∉ entry_publicKey <$> cores r → resolve pk false r = (None, r).
Proof.
  intros Hpk. unfold resolve.
  destruct (find (has_key pk) (cores r)) as [e|] eqn:Hfind; [|done].
  apply find_has_key_Some in Hfind as [He <-]. destruct Hpk.
  by apply list_elem_of_fmap_2.
Qed.

(** *** What [release] does in a reachable registry *)

Lemma release_last (r : Registry) (h : handle) :
  registry_inv r → handle_logs_inv r → h ∈ handles r →
  handles_of (handle_publicKey h) (handles r) = [h] →
  entry_publicKey <$> cores (release (handle_id h) r)
    = filter (λ pk, pk ≠ handle_publicKey h) (entry_publicKey <$> cores r)
  ∧ open_logs (release (handle_id h) r)
    = filter (λ l, l.1 ≠ handle_log h) (open_logs r).
Proof.
  intros Hinv Hlogs Hh Hlast.
  pose proof (entry_of_handle r h Hinv Hlogs Hh) as He. rewrite Hlast in He.
  cbn [length] in He.
  assert (Hfind : find (λ h', handle_id h' =? handle_id h) (handles r) = Some h).
  { destruct (find (λ h', handle_id h' =? handle_id h) (handles r)) as [h'|] eqn:Hf.
    - apply find_handle_Some in Hf as [Hh' Hid]. f_equal.
      by apply (NoDup_fmap_elem_inj handle_id (handles r)); [apply (inv_ids r Hinv)|..].
    - apply list_elem_of_In in Hh.
      pose proof (find_none _ _ Hf h Hh) as Hno. cbn in Hno.
      by rewrite Nat.eqb_refl in Hno. }
  unfold release. rewrite Hfind.
  destruct (find (has_key (handle_publicKey h)) (cores r)) as [e|] eqn:Hentry.
  - apply find_has_key_Some in Hentry as [Hein Hkey].
    assert (e = mkEntry (handle_publicKey h) (handle_log h) 1) as ->
      by by apply (NoDup_fmap_elem_inj entry_publicKey (cores r));
           [apply (inv_keys r Hinv)|..].
    cbn [refcount logInstance Nat.leb cores open_logs]. split; [|done].
    symmetry. by apply filter_fmap_agree.
  - apply find_has_key_None in Hentry. destruct Hentry.
    by apply (list_elem_of_fmap_2 entry_publicKey) in He.
Qed.

Lemma release_shared (r : Registry) (h : handle) :
  registry_inv r → handle_logs_inv r → h ∈ handles r →
  1 < length (handles_of (handle_publicKey h) (handles r)) →
  entry_publicKey <$> cores (release (handle_id h) r) = entry_publicKey <$> cores r
  ∧ open_logs (release (handle_id h) r) = open_logs r.
Proof.
  intros Hinv Hlogs Hh Hmore.
  pose proof (entry_of_handle r h Hinv Hlogs Hh) as He.
  assert (Hfind : find (λ h', handle_id h' =? handle_id h) (handles r) = Some h).
  { destruct (find (λ h', handle_id h' =? handle_id h) (handles r)) as [h'|] eqn:Hf.
    - apply find_handle_Some in Hf as [Hh' Hid]. f_equal.
      by apply (NoDup_fmap_elem_inj handle_id (handles r)); [apply (inv_ids r Hinv)|..].
    - apply list_elem_of_In in Hh.
      pose proof (find_none _ _ Hf h Hh) as Hno. cbn in Hno.
      by rewrite Nat.eqb_refl in Hno. }
  unfold release. rewrite Hfind.
  destruct (find (has_key (handle_publicKey h)) (cores r)) as [e|] eqn:Hentry.
  - apply find_has_key_Some in Hentry as [Hein Hkey].
    assert (e = mkEntry (handle_publicKey h) (handle_log h)
                  (length (handles_of (handle_publicKey h) (handles r)))) as ->
      by by apply (NoDup_fmap_elem_inj entry_publicKey (cores r));
           [apply (inv_keys r Hinv)|..].
    cbn [refcount]. destruct (Nat.leb_spec (length (handles_of (handle_publicKey h) (handles r))) 1);
      [lia|].
    cbn [cores open_logs]. split; [|done].
    by rewrite fmap_fmap_same by apply drop_ref_key.
  - done.
Qed.

Lemma release_unknown (r : Registry) (id : nat) :
  id ∉ handle_id <$> handles r → release id r = r.
Proof.
  intros Hid. unfold release.
  destruct (find (λ h, handle_id h =? id) (handles r)) as [h|] eqn:Hfind; [|done].
  apply find_handle_Some in Hfind as [Hh <-]. destruct Hid.
  by apply list_elem_of_fmap_2.
Qed.

(** C8. After any sequence of [resolve] and [release] operations on the
    empty registry:
    - no two cache entries have the same public key, no public key and no
      log instance is open twice, and the open log instances are those of
      the cache entries;
    - the cached keys are the keys of the handles that [resolve] has
      returned and that have not been released since, so the size of
      [cores] is the number of distinct such keys, however many handles
      there are of each; the number of handles of a key is the reference
      count of its entry, and every such handle is on the log instance of
      that entry;
    - resolving a cached key returns a new handle on the open log instance
      of the key and leaves the cached keys and the open log instances as
      they are; resolving a key that is not cached, with an opener that
      succeeds, returns a new handle on a log instance that was not open
      and adds the key to the cache; with an opener that fails it returns
      no handle and changes nothing;
    - releasing the only handle of a key removes the key from the cache
      and closes its log instance; releasing one of several handles of a
      key leaves the cached keys and the open log instances as they are;
      releasing what is not an outstanding handle changes nothing. *)
Theorem registry_has_one_entry_per_key (ops : list op) :
  NoDup (entry_publicKey <$> cores (run_ops ops))
  ∧ (∀ e1 e2, e1 ∈ cores (run_ops ops) → e2 ∈ cores (run_ops ops) →
       entry_publicKey e1 = entry_publicKey e2 → e1 = e2)
  ∧ NoDup (open_logs (run_ops ops)).*2
  ∧ NoDup (open_logs (run_ops ops)).*1
  ∧ open_logs (run_ops ops) = log_of <$> cores (run_ops ops)
  ∧ (∀ pk, pk ∈ entry_publicKey <$> cores (run_ops ops)
           ↔ pk ∈ handle_publicKey <$> outstanding ops)
  ∧ length (cores (run_ops ops))
    = length (remove_dups (handle_publicKey <$> outstanding ops))
  ∧ NoDup (handle_id <$> outstanding ops)
  ∧ (∀ e, e ∈ cores (run_ops ops) →
       refcount e = length (handles_of (entry_publicKey e) (outstanding ops))
       ∧ 0 < refcount e)
  ∧ (∀ h, h ∈ outstanding ops →
       mkEntry (handle_publicKey h) (handle_log h)
               (length (handles_of (handle_publicKey h) (outstanding ops)))
         ∈ cores (run_ops ops))
  ∧ (∀ pk opens, pk ∈ entry_publicKey <$> cores (run_ops ops) →
       ∃ h, (resolve pk opens (run_ops ops)).1 = Some h
            ∧ handle_publicKey h = pk
            ∧ (handle_id h ∉ handle_id <$> outstanding ops)
            ∧ (handle_log h, pk) ∈ open_logs (run_ops ops)
            ∧ outstanding (ops ++ [Resolve pk opens]) = h :: outstanding ops
            ∧ open_logs (run_ops (ops ++ [Resolve pk opens])) = open_logs (run_ops ops)
            ∧ entry_publicKey <$> cores (run_ops (ops ++ [Resolve pk opens]))
              = entry_publicKey <$> cores (run_ops ops))
  ∧ (∀ pk, pk ∉ entry_publicKey <$> cores (run_ops ops) →
       (∃ h, (resolve pk true (run_ops ops)).1 = Some h
             ∧ handle_publicKey h = pk
             ∧ (handle_id h ∉ handle_id <$> outstanding ops)
             ∧ (handle_log h ∉ (open_logs (run_ops ops)).*1)
             ∧ outstanding (ops ++ [Resolve pk true]) = h :: outstanding ops
             ∧ open_logs (run_ops (ops ++ [Resolve pk true]))
               = open_logs (run_ops ops) ++ [(handle_log h, pk)]
             ∧ entry_publicKey <$> cores (run_ops (ops ++ [Resolve pk true]))
               = (entry_publicKey <$> cores (run_ops ops)) ++ [pk])
       ∧ resolve pk false (run_ops ops) = (None, run_ops ops)
       ∧ outstanding (ops ++ [Resolve pk false]) = outstanding ops)
  ∧ (∀ h, h ∈ outstanding ops →
       (handles_of (handle_publicKey h) (outstanding ops) = [h] →
        entry_publicKey <$> cores (run_ops (ops ++ [Release (handle_id h)]))
          = filter (λ pk, pk ≠ handle_publicKey h) (entry_publicKey <$> cores (run_ops ops))
        ∧ open_logs (run_ops (ops ++ [Release (handle_id h)]))
          = filter (λ l, l.1 ≠ handle_log h) (open_logs (run_ops ops)))
       ∧ (1 < length (handles_of (handle_publicKey h) (outstanding ops)) →
          entry_publicKey <$> cores (run_ops (ops ++ [Release (handle_id h)]))
            = entry_publicKey <$> cores (run_ops ops)
          ∧ open_logs (run_ops (ops ++ [Release (handle_id h)]))
            = open_logs (run_ops ops)))
  ∧ (∀ id, id ∉ handle_id <$> outstanding ops →
       run_ops (ops ++ [Release id]) = run_ops ops).
Proof.
  pose proof (run_ops_inv ops) as Hinv.
  pose proof (run_ops_handle_logs ops) as Hlogs.
  assert (Hkeys : NoDup (entry_publicKey <$> cores (run_ops ops)))
    by apply (inv_keys _ Hinv).
  rewrite !(outstanding_handles ops).
  split; [done|].
  split.
  { intros e1 e2 He1 He2 Heq.
    by apply (NoDup_fmap_elem_inj entry_publicKey (cores (run_ops ops))). }
  split; [by rewrite (inv_logs _ Hinv), log_keys|].
  split; [by apply instances_open_once|].
  split; [apply (inv_logs _ Hinv)|].
  split; [intros pk; by apply cached_iff_outstanding|].
  split.
  { rewrite <- (length_fmap entry_publicKey).
    by rewrite (cached_keys_are_live _ Hinv). }
  split; [apply (inv_ids _ Hinv)|].
  split; [apply (inv_refcount _ Hinv)|].
  split; [intros h Hh; by apply entry_of_handle|].
  split.
  { intros pk opens Hpk. rewrite run_ops_snoc. cbn [step].
    destruct (resolve_cached (run_ops ops) pk opens Hinv Hpk)
      as (h & Hres & Hk & Hid & Hlog & Hopen & Hcores).
    exists h. rewrite outstanding_resolve, Hres, outstanding_handles. done. }
  split.
  { intros pk Hpk. rewrite !run_ops_snoc. cbn [step].
    destruct (resolve_opens (run_ops ops) pk Hinv Hpk)
      as (h & Hres & Hk & Hid & Hlog & Hopen & Hcores).
    split.
    - exists h. by rewrite outstanding_resolve, Hres, outstanding_handles.
    - rewrite outstanding_resolve, outstanding_handles.
      by rewrite (resolve_fails _ _ Hpk). }
  split.
  { intros h Hh. rewrite run_ops_snoc. cbn [step]. split.
    - by apply release_last.
    - by apply release_shared. }
  intros id Hid. rewrite run_ops_snoc. by apply release_unknown.
Qed.

End RegistryInvariant.

(** * Counting names

    There are [256 ^ n] strings of [n] bytes, so the strings of 33 bytes do
    not fit into those of 32. *)










(** * The theorems at concrete inputs *)

(** ** The stand-ins have the sizes of the primitives *)

Lemma toy_hash_length (n : nat) (key msg : bytes) : length (toy_hash n key msg) = n.
Proof.
  unfold toy_hash. rewrite length_take, !length_app, length_alloc. lia.
Qed.

Lemma toy_keypair_public_length (seed : bytes) :
  length (toy_keypair seed).1 = crypto_sign_PUBLICKEYBYTES.
Proof.
  unfold toy_keypair. cbn [fst].
  rewrite length_take, length_app, length_alloc.
  unfold crypto_sign_PUBLICKEYBYTES. lia.
Qed.

(** ** The tests of the key manager, run on the stand-ins *)

Example short_token_throws :
  (createHypercoreKeyPair toy_hash toy_keypair manager_a (JString (js "core1"))
     (Some (Buffer_from (js "hello"))) world_a).1 = Throw token_error.
Proof. vm_compute. reflexivity. Qed.

Example seed_message_core1 :
  seed_message None (js "core1")
  = Buffer_from (js "@hyperspace/key-manager") ++ Buffer_from (js "5") ++
    [Byte.x0a] ++ Buffer_from (js "core1").
Proof. vm_compute. reflexivity. Qed.

Example latin1_truncation :
  seed_message None [321%N] = seed_message None (js "A").
Proof. vm_compute. reflexivity. Qed.

(** ** The tests of the store's cache, run on the registry *)

Example basic_get_with_caching :
  length (cores (run_ops [Resolve (Buffer_from (js "core-1")) true;
                          Resolve (Buffer_from (js "core-1")) true;
                          Resolve (Buffer_from (js "core-2")) true])) = 2.
Proof. vm_compute. reflexivity. Qed.

Example core_uncached_when_all_sessions_close :
  length (cores (run_ops [Resolve (Buffer_from (js "main")) true])) = 1
  ∧ length (cores (run_ops [Resolve (Buffer_from (js "main")) true; Release 0])) = 0.
Proof. vm_compute. split; reflexivity. Qed.

(** ** Where the specification says more than the code does *)

(** C2, as stated, fails: the application id and the namespace are hashed
    one after the other with nothing in between, so moving a byte from the
    end of the one to the start of the other changes both and leaves the
    hash input, the seed and the key pair as they were, whatever the hash
    and the signature scheme. *)
Lemma application_namespace_boundary_collision :
  Buffer_from (js "ab") ≠ Buffer_from (js "a")
  ∧ ([] : bytes) ≠ Buffer_from (js "b")
  ∧ ∀ blake2b ed25519_keypair leaf pk w,
      createKeyPair blake2b ed25519_keypair (Buffer_from (js "ab")) [] leaf pk w
      = createKeyPair blake2b ed25519_keypair
          (Buffer_from (js "a")) (Buffer_from (js "b")) leaf pk w.
Proof.
  split; [by vm_compute|]. split; [by vm_compute|].
  intros blake2b ed25519_keypair leaf pk w. reflexivity.
Qed.

(** C3, as stated, fails: with the [overwrite] option set, a slot that
    holds 40 bytes is not read; the profile is fresh entropy, different
    from the first 32 stored bytes, and the slot afterwards starts with
    it. *)
Lemma fromStorage_overwrite_ignores_stored_profile :
  files world_b !! "default" = Some (Data (alloc 40))
  ∧ (fromStorage (λ n, n) (mkOpts None true) world_b).1
    = Return (mkKeyManager "default" (next_entropy 32 world_b))
  ∧ next_entropy 32 world_b ≠ take 32 (alloc 40)
  ∧ files (fromStorage (λ n, n) (mkOpts None true) world_b).2 !! "default"
    = Some (Data (next_entropy 32 world_b ++ alloc 8)).
Proof.
  assert (Hslot : files world_b !! "default" = Some (Data (alloc 40)))
    by (unfold world_b; cbn [files]; apply lookup_singleton_eq).
  split; [done|].
  rewrite (fromStorage_generates (λ n, n) (mkOpts None true) world_b (alloc 40));
    [|left; exact Hslot|right; reflexivity].
  split; [done|]. split; [by vm_compute|].
  cbn [snd]. by rewrite files_generated.
Qed.


(** ** Instances of the theorems *)

(** The stand-ins do not collide at the inputs used below. *)
Ltac differs := let H := fresh "H" in intros H; vm_compute in H; discriminate H.

Lemma key_derivation_is_deterministic_witness :
  profile manager_a = profile manager_b
  ∧ (createSecret toy_hash manager_a (JString (js "core1")) None world_a).1
    = (createSecret toy_hash manager_b (JString (js "core1")) None world_b).1
  ∧ (createHypercoreKeyPair toy_hash toy_keypair manager_a (JString (js "core1")) None world_a).1
    = (createHypercoreKeyPair toy_hash toy_keypair manager_b (JString (js "core1")) None world_b).1.
Proof.
  split; [reflexivity|].
  destruct (key_derivation_is_deterministic toy_hash toy_keypair
              toy_hash_length toy_keypair_public_length
              manager_a manager_b (JString (js "core1")) None None world_a world_b
              eq_refl) as (_ & Hsecret & Hpair & _).
  exact (conj Hsecret Hpair).
Defined.

Lemma name_check_precedes_hashing_witness :
  name_rejected (JString [])
  ∧ name_rejected (JNumber 4)
  ∧ (∃ e, InvalidArgument e
       ∧ deriveSeed toy_hash (profile manager_a) None (JNumber 4) None world_b
         = (Throw e, world_b))
  ∧ (∃ seed, (createSecret toy_hash manager_a (JString (js "core1")) None world_b).1
             = Return seed ∧ length seed = 32).
Proof.
  assert (Hnumber : name_rejected (JNumber 4)) by (by right).
  assert (Hname : js "core1" ≠ []) by discriminate.
  split; [by left|]. split; [exact Hnumber|]. split.
  - destruct (name_check_precedes_hashing toy_hash toy_keypair manager_a None
                (JNumber 4) None world_b) as [Hrejected _].
    destruct (Hrejected Hnumber) as (e & Hinvalid & Hrun & _).
    exists e. exact (conj Hinvalid Hrun).
  - destruct (name_check_precedes_hashing toy_hash toy_keypair manager_a None
                (JString (js "core1")) None world_b) as [_ Haccepted].
    destruct (Haccepted (js "core1") eq_refl Hname)
      as (_ & _ & _ & _ & Hreturns).
    destruct (Hreturns I) as (seed & kp & kp' & Hseed & Hlen & _).
    exists seed. exact (conj Hseed Hlen).
Defined.

Lemma short_token_is_rejected_witness :
  length (Buffer_from (js "hello")) < 32
  ∧ deriveSeed toy_hash (profile manager_a) (Some (Buffer_from (js "hello")))
      (JString (js "core1")) None world_a = (Throw token_error, world_a)
  ∧ token_ok (Some token_1)
  ∧ (createHypercoreKeyPair toy_hash toy_keypair manager_a (JString (js "core1"))
       (Some token_1) world_a).1 ≠ Throw token_error.
Proof.
  assert (Hshort : length (Buffer_from (js "hello")) < 32) by (vm_compute; lia).
  assert (Hlong : token_ok (Some token_1)) by (vm_compute; lia).
  split; [exact Hshort|]. split.
  - destruct (short_token_is_rejected toy_hash toy_keypair manager_a
                (Some (Buffer_from (js "hello"))) (JString (js "core1")) None world_a)
      as [Hrejected _].
    exact (proj1 (proj2 (Hrejected _ eq_refl Hshort))).
  - split; [exact Hlong|].
    destruct (short_token_is_rejected toy_hash toy_keypair manager_a
                (Some token_1) (JString (js "core1")) None world_a)
      as [_ Haccepted].
    exact (proj1 (proj2 (proj2 (Haccepted Hlong)))).
Defined.

Lemma network_identity_has_the_hypercore_key_witness :
  token_ok (Some token_2) ∧ js "core1" ≠ []
  ∧ ∃ kp kp',
      (createHypercoreKeyPair toy_hash toy_keypair manager_a (JString (js "core1"))
         (Some token_2) world_a).1 = Return kp
      ∧ (createNetworkIdentity toy_hash toy_keypair manager_a (JString (js "core1"))
           (Some token_2) world_b).1 = Return kp'
      ∧ publicKey kp = publicKey kp'
      ∧ length (publicKey kp) = 32.
Proof.
  assert (Htok : token_ok (Some token_2)) by (vm_compute; lia).
  assert (Hname : js "core1" ≠ []) by discriminate.
  split; [exact Htok|]. split; [exact Hname|].
  destruct (network_identity_has_the_hypercore_key toy_hash toy_keypair
              toy_keypair_public_length manager_a (js "core1") (Some token_2)
              world_a world_b Htok Hname)
    as (kp & kp' & H1 & H2 & Hsame & Hlen & _).
  exists kp, kp'. exact (conj H1 (conj H2 (conj Hsame Hlen))).
Defined.

Lemma distinct_tokens_give_distinct_keys_witness :
  js "core1" ≠ [] ∧ 32 ≤ length token_1 ∧ 32 ≤ length token_2 ∧ token_1 ≠ token_2
  ∧ collision_free toy_hash (profile manager_a)
      (seed_message (Some token_1) (js "core1")) (seed_message (Some token_2) (js "core1"))
  ∧ distinct_public_keys toy_keypair
      (toy_hash 32 (profile manager_a) (seed_message (Some token_1) (js "core1")))
      (toy_hash 32 (profile manager_a) (seed_message (Some token_2) (js "core1")))
  ∧ ∃ kp1 kp2,
      (createHypercoreKeyPair toy_hash toy_keypair manager_a (JString (js "core1"))
         (Some token_1) world_a).1 = Return kp1
      ∧ (createHypercoreKeyPair toy_hash toy_keypair manager_a (JString (js "core1"))
           (Some token_2) world_a).1 = Return kp2
      ∧ publicKey kp1 ≠ publicKey kp2.
Proof.
  assert (Hname : js "core1" ≠ []) by discriminate.
  assert (H1 : 32 ≤ length token_1) by (vm_compute; lia).
  assert (H2 : 32 ≤ length token_2) by (vm_compute; lia).
  assert (Hne : token_1 ≠ token_2) by differs.
  assert (Hhash : collision_free toy_hash (profile manager_a)
            (seed_message (Some token_1) (js "core1"))
            (seed_message (Some token_2) (js "core1"))) by differs.
  assert (Hkeys : distinct_public_keys toy_keypair
            (toy_hash 32 (profile manager_a) (seed_message (Some token_1) (js "core1")))
            (toy_hash 32 (profile manager_a) (seed_message (Some token_2) (js "core1"))))
    by differs.
  do 4 (split; [assumption|]). split; [exact Hhash|]. split; [exact Hkeys|].
  exact (proj2 (distinct_tokens_give_distinct_keys toy_hash toy_keypair
                  toy_hash_length toy_keypair_public_length manager_a (js "core1")
                  token_1 token_2 world_a world_a Hname H1 H2 Hne) Hhash Hkeys).
Defined.

Lemma application_and_namespace_change_the_key_witness :
  (Buffer_from (js "corestore") ≠ Buffer_from (js "foo") ∨ token_1 ≠ token_2)
  ∧ (length (Buffer_from (js "corestore")) = length (Buffer_from (js "foo"))
     ∨ length token_1 = length token_2)
  ∧ Buffer_from (js "corestore") ++ token_1 ≠ Buffer_from (js "foo") ++ token_2
  ∧ collision_free toy_hash (alloc 32)
      (keypair_message (Buffer_from (js "corestore")) token_1 (js "hello"))
      (keypair_message (Buffer_from (js "foo")) token_2 (js "hello"))
  ∧ distinct_public_keys toy_keypair
      (toy_hash 32 (alloc 32)
         (keypair_message (Buffer_from (js "corestore")) token_1 (js "hello")))
      (toy_hash 32 (alloc 32)
         (keypair_message (Buffer_from (js "foo")) token_2 (js "hello")))
  ∧ (∃ kp1 kp2,
       (createKeyPair toy_hash toy_keypair (Buffer_from (js "corestore"))
          token_1 (js "hello") (alloc 32) world_a).1 = Return kp1
       ∧ (createKeyPair toy_hash toy_keypair (Buffer_from (js "foo"))
            token_2 (js "hello") (alloc 32) world_b).1 = Return kp2
       ∧ publicKey kp1 ≠ publicKey kp2)
  ∧ [Byte.x01] ++ [Byte.x02; Byte.x03] = [Byte.x01; Byte.x02] ++ [Byte.x03]
  ∧ createKeyPair toy_hash toy_keypair [Byte.x01] [Byte.x02; Byte.x03]
      (js "hello") (alloc 32) world_b
    = createKeyPair toy_hash toy_keypair [Byte.x01; Byte.x02] [Byte.x03]
        (js "hello") (alloc 32) world_b.
Proof.
  assert (Hchange : Buffer_from (js "corestore") ≠ Buffer_from (js "foo") ∨ token_1 ≠ token_2)
    by (right; differs).
  assert (Hlen : length (Buffer_from (js "corestore")) = length (Buffer_from (js "foo"))
                 ∨ length token_1 = length token_2)
    by (right; reflexivity).
  assert (Hhash : collision_free toy_hash (alloc 32)
            (keypair_message (Buffer_from (js "corestore")) token_1 (js "hello"))
            (keypair_message (Buffer_from (js "foo")) token_2 (js "hello")))
    by differs.
  assert (Hkeys : distinct_public_keys toy_keypair
            (toy_hash 32 (alloc 32)
               (keypair_message (Buffer_from (js "corestore")) token_1 (js "hello")))
            (toy_hash 32 (alloc 32)
               (keypair_message (Buffer_from (js "foo")) token_2 (js "hello"))))
    by differs.
  destruct (application_and_namespace_change_the_key toy_hash toy_keypair
              toy_hash_length toy_keypair_public_length
              (Buffer_from (js "corestore")) token_1 (Buffer_from (js "foo")) token_2
              (js "hello") (alloc 32) world_a world_b)
    as (_ & Hconcat & Hdiff & _).
  destruct (application_and_namespace_change_the_key toy_hash toy_keypair
              toy_hash_length toy_keypair_public_length
              [Byte.x01] [Byte.x02; Byte.x03] [Byte.x01; Byte.x02] [Byte.x03]
              (js "hello") (alloc 32) world_b world_b)
    as (_ & _ & _ & Hsame).
  split; [exact Hchange|]. split; [exact Hlen|].
  split; [exact (Hconcat Hchange Hlen)|].
  split; [exact Hhash|]. split; [exact Hkeys|].
  split; [exact (Hdiff (Hconcat Hchange Hlen) Hhash Hkeys)|].
  split; [reflexivity|]. exact (Hsame eq_refl).
Defined.


Lemma registry_has_one_entry_per_key_witness :
  mkHandle 0 (Buffer_from (js "main")) 0
    ∈ outstanding [Resolve (Buffer_from (js "main")) true]
  ∧ handles_of (Buffer_from (js "main"))
      (outstanding [Resolve (Buffer_from (js "main")) true])
    = [mkHandle 0 (Buffer_from (js "main")) 0]
  ∧ entry_publicKey
      <$> cores (run_ops ([Resolve (Buffer_from (js "main")) true] ++ [Release 0]))
    = filter (λ pk, pk ≠ Buffer_from (js "main"))
        (entry_publicKey <$> cores (run_ops [Resolve (Buffer_from (js "main")) true]))
  ∧ open_logs (run_ops ([Resolve (Buffer_from (js "main")) true] ++ [Release 0]))
    = filter (λ l, l.1 ≠ 0)
        (open_logs (run_ops [Resolve (Buffer_from (js "main")) true])).
Proof.
  assert (Hout : mkHandle 0 (Buffer_from (js "main")) 0
                   ∈ outstanding [Resolve (Buffer_from (js "main")) true])
    by (vm_compute; left).
  assert (Hlast : handles_of (Buffer_from (js "main"))
                    (outstanding [Resolve (Buffer_from (js "main")) true])
                  = [mkHandle 0 (Buffer_from (js "main")) 0])
    by (vm_compute; reflexivity).
  destruct (registry_has_one_entry_per_key [Resolve (Buffer_from (js "main")) true])
    as (_ & _ & _ & _ & _ & _ & _ & _ & _ & _ & _ & _ & Hrelease & _).
  split; [exact Hout|]. split; [exact Hlast|].
  exact (proj1 (Hrelease (mkHandle 0 (Buffer_from (js "main")) 0) Hout) Hlast).
Defined.

Lemma fromStorage_reads_or_generates_witness :
  overwrite no_opts = false
  ∧ holds world_a "default" []
  ∧ files world_b !! "default" = Some (Data (alloc 40))
  ∧ (fromStorage (λ n, n) no_opts world_a).1
    = Return (mkKeyManager "default" (next_entropy 32 world_a))
  ∧ (fromStorage (λ n, n) no_opts world_b).1
    = Return (mkKeyManager "default" (take 32 (alloc 40)))
  ∧ ∃ this, (fromStorage (λ n, n) no_opts world_a).1 = Return this
      ∧ ∀ w', files w' !! "default"
              = files (fromStorage (λ n, n) no_opts world_a).2 !! "default" →
              (fromStorage (λ n, n) no_opts w').1 = Return this.
Proof.
  assert (Hnone : holds world_a "default" []) by (right; split; reflexivity).
  assert (Hdata : files world_b !! "default" = Some (Data (alloc 40)))
    by (unfold world_b; cbn [files]; apply lookup_singleton_eq).
  assert (Hlong : 32 ≤ length (alloc 40)) by (vm_compute; lia).
  destruct (fromStorage_reads_or_generates (λ n, n) no_opts world_a eq_refl)
    as (Hgenerate & _ & Hagain).
  destruct (fromStorage_reads_or_generates (λ n, n) no_opts world_b eq_refl)
    as (_ & Hread & _).
  split; [reflexivity|]. split; [exact Hnone|]. split; [exact Hdata|].
  split; [exact (proj1 (Hgenerate [] Hnone ltac:(simpl; lia)))|].
  split; [exact (proj1 (Hread (alloc 40) Hdata Hlong))|].
  destruct (Hagain [] Hnone) as (this & Hrun & _ & Hsecond).
  exists this. exact (conj Hrun Hsecond).
Defined.

Lemma fromStorage_overwrite_regenerates_witness :
  overwrite (mkOpts None true) = true
  ∧ holds world_b "default" (alloc 40)
  ∧ (fromStorage (λ n, n) (mkOpts None true) world_b).1
    = Return (mkKeyManager "default" (next_entropy 32 world_b))
  ∧ trace (fromStorage (λ n, n) (mkOpts None true) world_b).2
    = trace world_b ++ [EvStat "default"; EvRandom 32;
                        EvWrite "default" 0 (next_entropy 32 world_b)].
Proof.
  assert (Hdata : holds world_b "default" (alloc 40))
    by (left; unfold world_b; cbn [files]; apply lookup_singleton_eq).
  destruct (fromStorage_overwrite_regenerates (λ n, n) (mkOpts None true) world_b
              (alloc 40) eq_refl Hdata) as (Hrun & _ & _ & Htrace & _).
  split; [reflexivity|]. split; [exact Hdata|]. exact (conj Hrun Htrace).
Defined.

(** ** Instances of the further properties *)

Lemma toy_keypair_secret_length (seed : bytes) :
  length (toy_keypair seed).2 = crypto_sign_SECRETKEYBYTES.
Proof.
  unfold toy_keypair. cbn [snd].
  rewrite length_app, !length_take, !length_app, length_reverse, length_alloc.
  unfold crypto_sign_SECRETKEYBYTES. lia.
Qed.

Lemma toy_sign_length (message sk : bytes) :
  length (toy_sign message sk) = crypto_sign_BYTES.
Proof.
  unfold toy_sign. rewrite length_take, !length_app, length_alloc.
  unfold crypto_sign_BYTES. lia.
Qed.

Lemma latin1_core1 : latin1 (js "core1").
Proof.
  unfold latin1. repeat (apply Forall_cons; split; [reflexivity|]). apply Forall_nil_2.
Qed.

Lemma latin1_core2 : latin1 (js "core2").
Proof.
  unfold latin1. repeat (apply Forall_cons; split; [reflexivity|]). apply Forall_nil_2.
Qed.

Lemma createToken_is_accepted_witness :
  js "core1" ≠ []
  ∧ ∃ token kp,
      (createToken world_a).1 = Return token
      ∧ length token = 32
      ∧ (createHypercoreKeyPair toy_hash toy_keypair manager_a (JString (js "core1"))
           (Some token) world_b).1 = Return kp.
Proof.
  assert (Hname : js "core1" ≠ []) by discriminate.
  split; [exact Hname|].
  destruct (createToken_is_accepted toy_hash toy_keypair manager_a (js "core1")
              world_a world_b Hname) as (token & kp & Htoken & Hlen & _ & Hrun).
  exists token, kp. exact (conj Htoken (conj Hlen Hrun)).
Defined.

Lemma key_pairs_have_the_sodium_sizes_witness :
  ∃ kp,
    (createHypercoreKeyPair toy_hash toy_keypair manager_a (JString (js "core1"))
       None world_a).1 = Return kp
    ∧ length (publicKey kp) = crypto_sign_PUBLICKEYBYTES
    ∧ length (secretKey kp) = crypto_sign_SECRETKEYBYTES.
Proof.
  assert (Hname : js "core1" ≠ []) by discriminate.
  pose proof (f_equal fst (createHypercoreKeyPair_returns toy_hash toy_keypair
                manager_a (js "core1") None world_a I Hname)) as Hrun.
  cbn [fst] in Hrun. eexists. split; [exact Hrun|].
  exact (key_pairs_have_the_sodium_sizes toy_hash toy_keypair toy_hash_length
           manager_a (JString (js "core1")) None [] [] [] world_a _ (or_introl Hrun)).
Defined.

Lemma sign_of_a_derived_key_pair_witness :
  token_ok None ∧ js "core1" ≠ []
  ∧ ∃ kp signature,
      (createHypercoreKeyPair toy_hash toy_keypair manager_a (JString (js "core1"))
         None world_a).1 = Return kp
      ∧ (sign toy_sign kp (Buffer_from (js "hello")) world_b).1 = Return signature
      ∧ length signature = crypto_sign_BYTES.
Proof.
  assert (Hname : js "core1" ≠ []) by discriminate.
  split; [exact I|]. split; [exact Hname|].
  destruct (sign_of_a_derived_key_pair toy_hash toy_keypair toy_sign
              toy_keypair_secret_length toy_sign_length manager_a (js "core1") None
              (Buffer_from (js "hello")) world_a world_b I Hname)
    as [(kp & Hrun & Hsign & Hlen & _) _].
  exists kp. eexists. exact (conj Hrun (conj Hsign Hlen)).
Defined.

Lemma fromStorage_passes_driver_errors_on_witness :
  files world_c !! "default" = Some (Faulty "EACCES")
  ∧ files world_d !! "default" = Some (Failing (Some (alloc 4096)) "EISDIR")
  ∧ (fromStorage (λ n, n) no_opts world_c).1 = Throw (StorageError "EACCES")
  ∧ (fromStorage (λ n, n) no_opts world_d).1 = Throw (StorageError "EISDIR")
  ∧ trace (fromStorage (λ n, n) no_opts world_d).2
    = trace world_d ++ [EvStat "default"; EvRead "default" 0 32]
  ∧ (fromStorage (λ n, n) (mkOpts None true) world_d).1 = Throw (StorageError "EISDIR")
  ∧ files (fromStorage (λ n, n) (mkOpts None true) world_d).2 = files world_d.
Proof.
  assert (Hc : files world_c !! "default" = Some (Faulty "EACCES"))
    by (unfold world_c; cbn [files]; apply lookup_singleton_eq).
  assert (Hd : files world_d !! "default" = Some (Failing (Some (alloc 4096)) "EISDIR"))
    by (unfold world_d; cbn [files]; apply lookup_singleton_eq).
  destruct (fromStorage_passes_driver_errors_on (λ n, n) no_opts world_c "EACCES"
              (or_introl Hc)) as (Hrun_c & _).
  destruct (fromStorage_passes_driver_errors_on (λ n, n) no_opts world_d "EISDIR"
              (or_intror (ex_intro _ _ Hd))) as (Hrun_d & _ & _ & Hread & _).
  destruct (fromStorage_passes_driver_errors_on (λ n, n) (mkOpts None true) world_d
              "EISDIR" (or_intror (ex_intro _ _ Hd))) as (Hrun_w & Hfiles_w & _).
  split; [exact Hc|]. split; [exact Hd|]. split; [exact Hrun_c|].
  split; [exact Hrun_d|].
  split; [exact (proj2 (Hread (alloc 4096) Hd ltac:(rewrite length_alloc; lia) eq_refl))|].
  exact (conj Hrun_w Hfiles_w).
Defined.

Lemma fromStorage_profile_is_on_disk_witness :
  (fromStorage (λ n, n) no_opts world_a).1
    = Return (mkKeyManager "default" (next_entropy 32 world_a))
  ∧ ∃ after,
      files (fromStorage (λ n, n) no_opts world_a).2 !! "default" = Some (Data after)
      ∧ take 32 after = next_entropy 32 world_a.
Proof.
  assert (Hrun : (fromStorage (λ n, n) no_opts world_a).1
                 = Return (mkKeyManager "default" (next_entropy 32 world_a))).
  { rewrite (fromStorage_generates (λ n, n) no_opts world_a []);
      [reflexivity|right; split; reflexivity|left; simpl; lia]. }
  split; [exact Hrun|].
  destruct (fromStorage_profile_is_on_disk (λ n, n) no_opts world_a _ Hrun)
    as (_ & _ & after & Hfiles & _ & Htake).
  exists after. exact (conj Hfiles Htake).
Defined.

Lemma reopened_manager_derives_the_same_keys_witness :
  holds world_b "default" (alloc 40)
  ∧ ∃ this this' kp,
      (fromStorage (λ n, n) (mkOpts None true) world_b).1 = Return this
      ∧ (fromStorage (λ n, n) no_opts
           (fromStorage (λ n, n) (mkOpts None true) world_b).2).1 = Return this'
      ∧ profile this' = profile this
      ∧ (createHypercoreKeyPair toy_hash toy_keypair this (JString (js "core1"))
           None world_a).1 = Return kp
      ∧ (createHypercoreKeyPair toy_hash toy_keypair this' (JString (js "core1"))
           None world_b).1 = Return kp.
Proof.
  assert (Hdata : holds world_b "default" (alloc 40))
    by (left; unfold world_b; cbn [files]; apply lookup_singleton_eq).
  assert (Hname : js "core1" ≠ []) by discriminate.
  split; [exact Hdata|].
  exact (reopened_manager_derives_the_same_keys toy_hash toy_keypair
           toy_keypair_public_length (λ n, n) (mkOpts None true) no_opts world_b
           (fromStorage (λ n, n) (mkOpts None true) world_b).2 world_a world_b
           (alloc 40) (js "core1") None Hdata eq_refl eq_refl eq_refl I Hname).
Defined.

Lemma distinct_names_give_distinct_keys_witness :
  latin1 (js "core1") ∧ latin1 (js "core2") ∧ js "core1" ≠ js "core2"
  ∧ seed_message None (js "core1") ≠ seed_message None (js "core2")
  ∧ ∃ kp1 kp2,
      (createHypercoreKeyPair toy_hash toy_keypair manager_a (JString (js "core1"))
         None world_a).1 = Return kp1
      ∧ (createHypercoreKeyPair toy_hash toy_keypair manager_a (JString (js "core2"))
           None world_a).1 = Return kp2
      ∧ publicKey kp1 ≠ publicKey kp2.
Proof.
  assert (Hne : js "core1" ≠ js "core2") by differs.
  destruct (distinct_names_give_distinct_keys toy_hash toy_keypair toy_hash_length
              toy_keypair_public_length manager_a None (js "core1") (js "core2")
              world_a world_a latin1_core1 latin1_core2 Hne) as [Hmsg Hkeys].
  split; [exact latin1_core1|]. split; [exact latin1_core2|]. split; [exact Hne|].
  split; [exact Hmsg|].
  exact (Hkeys I ltac:(discriminate) ltac:(discriminate) ltac:(differs) ltac:(differs)).
Defined.

Lemma names_are_hashed_by_their_low_bytes_witness :
  [321%N] ≠ js "A"
  ∧ Buffer_from_ascii [321%N] = Buffer_from_ascii (js "A")
  ∧ createHypercoreKeyPair toy_hash toy_keypair manager_a (JString [321%N]) None world_a
    = createHypercoreKeyPair toy_hash toy_keypair manager_a (JString (js "A")) None world_a.
Proof.
  assert (Henc : Buffer_from_ascii [321%N] = Buffer_from_ascii (js "A")) by reflexivity.
  split; [discriminate|]. split; [exact Henc|].
  exact (proj2 (proj2 (names_are_hashed_by_their_low_bytes toy_hash toy_keypair
                         manager_a None [321%N] (js "A") world_a Henc))).
Defined.

Lemma token_and_name_are_hashed_back_to_back_witness :
  32 ≤ length token_1 ∧ js "1" ≠ []
  ∧ js "ab" ++ length_prefixed (js "1") = js "ab1" ++ js_newline ++ js "1"
  ∧ createHypercoreKeyPair toy_hash toy_keypair manager_a
      (JString (js "ab" ++ length_prefixed (js "1"))) (Some token_1) world_a
    = createHypercoreKeyPair toy_hash toy_keypair manager_a (JString (js "1"))
        (Some (token_1 ++ Buffer_from_ascii
                 (decimal (length (js "ab" ++ length_prefixed (js "1")))
                    ++ js_newline ++ js "ab"))) world_a.
Proof.
  assert (Hlen : 32 ≤ length token_1) by (vm_compute; lia).
  assert (Hname : js "1" ≠ []) by discriminate.
  split; [exact Hlen|]. split; [exact Hname|]. split; [reflexivity|].
  exact (proj1 (proj2 (proj2 (proj2
           (token_and_name_are_hashed_back_to_back toy_hash toy_keypair
              manager_a token_1 (js "ab") (js "1") world_a Hlen Hname))))).
Defined.

Lemma fromStorage_touches_only_its_slot_witness :
  "default" ≠ "profile"
  ∧ files (fromStorage (λ n, n) (mkOpts (Some "profile") true) world_b).2 !! "default"
    = files world_b !! "default".
Proof.
  assert (Hne : "default" ≠ "profile") by discriminate.
  split; [exact Hne|].
  exact (proj1 (fromStorage_touches_only_its_slot (λ n, n)
                  (mkOpts (Some "profile") true) world_b "default" Hne)).
Defined.
